(** * Key-custody wallets: enumeration, canonical forms and optimal search

    A shallow embedding of [helpers/wallet_enumerations.py] and
    [helpers/computations.py], the properties of the specification
    (claims C1 to C10) as they hold on it, and further properties of the
    code.

    Python integers are unbounded and [&], [|], [<<] act on their two's
    complement representation: they are [Z] with [Z.land], [Z.lor] and
    [Z.shiftl].  Lists and tuples are [list]; a [set] is a [gset] and a
    [dict] a [gmap]; a function that may raise returns a [result].  Python
    floats are binary64, the kernel's primitive floats; the functions on
    probabilities are written over the operations they use ([PyFloat]), so
    that what is proved of them from their structure alone needs no fact
    about rounding. *)

From Stdlib Require Import ZArith Lia Ascii String.
From Stdlib Require Import Floats.PrimFloat Floats.SpecFloat Floats.FloatOps.
From Stdlib Require Import Floats.FloatAxioms.
From stdpp Require Import base list gmap sets sorting pretty.

Local Open Scope Z_scope.

(** ** helpers/wallet_enumerations.py *)

(** [range(lo, hi)]. *)
Definition range (lo hi : Z) : list Z := seqZ lo (hi - lo).

(** [isCovered(keyCombination, wallet)]: the loop returns on the first
    wallet combination all of whose bits are in [keyCombination]. *)
Fixpoint isCovered (keyCombination : Z) (wallet : list Z) : bool :=
  match wallet with
  | [] => false
  | walletCombination :: wallet' =>
      if Z.land walletCombination keyCombination =? walletCombination
      then true
      else isCovered keyCombination wallet'
  end.

(** [enumerateStaticSubWallets(baseWallet, prevCombi, keyCount)], for
    [keyCount >= 0] (where [2 ** keyCount] is an integer).  The recursive call
    sits inside the loop over [currCombi] and goes to a larger [prevCombi];
    [fuel] bounds the nesting depth of the calls. *)
Fixpoint enumerateStaticSubWallets_fuel (fuel : nat)
    (baseWallet : list Z) (prevCombi keyCount : Z) : list (list Z) :=
  match fuel with
  | O => []
  | S fuel' =>
      currCombi ← range (prevCombi + 1) (2 ^ keyCount);
      if negb (isCovered currCombi baseWallet) then
        let currWallet := baseWallet ++ [currCombi] in
        [currWallet]
          ++ enumerateStaticSubWallets_fuel fuel' currWallet currCombi keyCount
      else []
  end.

(** Every call raises [prevCombi], and a call with [prevCombi + 1 >= 2 ** keyCount]
    has an empty loop: [2 ** keyCount - prevCombi] nested calls are enough. *)
Definition enumerateStaticSubWallets
    (baseWallet : list Z) (prevCombi keyCount : Z) : list (list Z) :=
  enumerateStaticSubWallets_fuel
    (Z.to_nat (2 ^ keyCount - prevCombi)) baseWallet prevCombi keyCount.

(** [enumerate(l, start)]. *)
Fixpoint enumerate (start : Z) {A} (l : list A) : list (Z * A) :=
  match l with
  | [] => []
  | x :: l' => (start, x) :: enumerate (start + 1) l'
  end.

(** [bin(number)]: the sign, the prefix [0b] and the binary digits, the most
    significant one first. *)
Fixpoint bin_digits (p : positive) : string :=
  match p with
  | xH => "1"
  | xO p' => bin_digits p' +:+ "0"
  | xI p' => bin_digits p' +:+ "1"
  end.

Definition bin (number : Z) : string :=
  match number with
  | Z0 => "0b0"
  | Zpos p => "0b" +:+ bin_digits p
  | Zneg p => "-0b" +:+ bin_digits p
  end.

(** [s[:1:-1]]: the characters of [s] from the last one down to index 2. *)
Definition slice_down_to_2 (s : string) : list ascii :=
  reverse (drop 2 (list_ascii_of_string s)).

(** [str(i)] on an integer: its decimal digits. *)
Definition str (i : Z) : string := pretty i.

(** [oneBitIndices(number)]. *)
Definition oneBitIndices (number : Z) : list string :=
  foldl (λ bits '(i, c),
           if decide (c = "1"%char) then bits ++ [str i] else bits)
        [] (enumerate 1 (slice_down_to_2 (bin number))).

(** [sep.join(l)] on a list of strings. *)
Fixpoint join (sep : string) (l : list string) : string :=
  match l with
  | [] => ""
  | x :: l' =>
      match l' with
      | [] => x
      | _ :: _ => x +:+ sep +:+ join sep l'
      end
  end.

(** [walletStr(wallet)].  A Python [str] is modelled by the bytes of its
    UTF-8 encoding. *)
Definition walletStr (wallet : list Z) : string :=
  let combiStrings :=
    foldl (λ combiStrings combi,
             let keyIndices := oneBitIndices combi in
             combiStrings ++ ["(" +:+ join " ∧ " keyIndices +:+ ")"])
          [] wallet in
  join " ∨ " combiStrings.

(** [walletStrAscii(wallet, and_token, or_token)]; the defaults of the two
    tokens are ["AND"] and ["OR"]. *)
Definition walletStrAscii (wallet : list Z) (and_token or_token : string)
    : string :=
  let combiStrings :=
    foldl (λ combiStrings combi,
             let keyIndices := oneBitIndices combi in
             combiStrings
               ++ ["(" +:+ join (" " +:+ and_token +:+ " ") keyIndices +:+ ")"])
          [] wallet in
  join (" " +:+ or_token +:+ " ") combiStrings.

(** [permuteBits(number, permutation)].  The callers pass permutations of
    [1..keyCount], so that every shift count is non-negative (Python raises
    on a negative one). *)
Definition permuteBits (number : Z) (permutation : list Z) : Z :=
  foldl (fun result '(i, target_pos) =>
           if negb (Z.land number (Z.shiftl 1 (i - 1)) =? 0)
           then Z.lor result (Z.shiftl 1 (target_pos - 1))
           else result)
        0 (enumerate 1 permutation).

(** [sorted] on a sequence of integers. *)
Definition sorted (l : list Z) : list Z := merge_sort Z.le l.

(** [a < b] on tuples of integers: lexicographic, a proper prefix first. *)
Fixpoint tuple_ltb (a b : list Z) : bool :=
  match a, b with
  | [], [] => false
  | [], _ :: _ => true
  | _ :: _, [] => false
  | x :: a', y :: b' =>
      if x =? y then tuple_ltb a' b' else x <? y
  end.

(** The ways of taking one element out of a list, leftmost first. *)
Fixpoint selections {A} (l : list A) : list (A * list A) :=
  match l with
  | [] => []
  | x :: l' => (x, l') :: ((fun '(y, r) => (y, x :: r)) <$> selections l')
  end.

(** [itertools.permutations(pool)]: all orderings of the pool, in
    lexicographic order of the positions taken. *)
Fixpoint permutations_len (n : nat) {A} (pool : list A) : list (list A) :=
  match n with
  | O => [[]]
  | S n' =>
      '(x, rest) ← selections pool;
      (x ::.) <$> permutations_len n' rest
  end.

Definition permutations {A} (pool : list A) : list (list A) :=
  permutations_len (length pool) pool.

(** One round of the loop of [canonicalizeWallet]; [None] is Python's [None]. *)
Definition canonical_step (wallet : list Z)
    (best : option (list Z)) (perm : list Z) : option (list Z) :=
  let transformed := sorted ((fun c => permuteBits c perm) <$> wallet) in
  match best with
  | None => Some transformed
  | Some b => if tuple_ltb transformed b then Some transformed else best
  end.

(** [canonicalizeWallet(wallet, keyCount)]. *)
Definition canonicalizeWallet (wallet : list Z) (keyCount : Z)
    : option (list Z) :=
  let indices := range 1 (keyCount + 1) in
  foldl (canonical_step wallet) None (permutations indices).

(** [deduplicateWalletsByArchitecture(wallets, keyCount)]: the state of the
    loop is the set [seen] and the list [unique]. *)
Definition deduplicate_step (keyCount : Z)
    (st : gset (option (list Z)) * list (list Z)) (wallet : list Z)
    : gset (option (list Z)) * list (list Z) :=
  let '(seen, unique) := st in
  let canon := canonicalizeWallet wallet keyCount in
  if decide (canon ∈ seen) then (seen, unique)
  else ({[canon]} ∪ seen, unique ++ [wallet]).

Definition deduplicateWalletsByArchitecture
    (wallets : list (list Z)) (keyCount : Z) : list (list Z) :=
  (foldl (deduplicate_step keyCount) (∅, []) wallets).2.

(** [enumerateStaticWallets(keyCount, deduplicate_by_architecture=False)]. *)
Definition enumerateStaticWallets
    (keyCount : Z) (deduplicate_by_architecture : bool) : list (list Z) :=
  let wallets := enumerateStaticSubWallets [] 0 keyCount in
  if deduplicate_by_architecture
  then deduplicateWalletsByArchitecture wallets keyCount
  else wallets.

(** ** consts.py

    The four key states.  [consts.py] is not among the sources: the names
    [SAFE], [LOST], [LEAKED], [STOLEN] and the table [KeyStates] are imported
    from it, the values of the constants and the order of the table are not
    known. *)
Inductive KeyState := SAFE | LOST | LEAKED | STOLEN.

Global Instance KeyState_eq_dec : EqDecision KeyState.
Proof. solve_decision. Defined.

(** What [consts.py] fixes for the code below: the order in which
    [for keyState in KeyStates] visits the key states, and the order of
    [sorted(KeyStates)]. *)
Record consts := {
  KeyStates : list KeyState;
  sorted_KeyStates : list KeyState;
}.

(** Modelled from the spec: [consts.py] is missing; the spec (section 3) has
    exactly the four key states, each once, and lists them in this order. *)
Definition spec_consts : consts :=
  {| KeyStates := [SAFE; LOST; LEAKED; STOLEN];
     sorted_KeyStates := [SAFE; LOST; LEAKED; STOLEN] |}.

(** The table holds the four key states, each once, in some order. *)
Definition consts_ok (cs : consts) : Prop :=
  KeyStates cs ≡ₚ [SAFE; LOST; LEAKED; STOLEN]
  ∧ sorted_KeyStates cs ≡ₚ KeyStates cs.

(** The keys of a Python [dict]: one of the four constants, or any other
    hashable value (here an integer that stands for it). *)
Inductive key := State (s : KeyState) | Other (n : Z).

Global Instance key_eq_dec : EqDecision key.
Proof. solve_decision. Defined.

Definition key_code (x : key) : Z + Z :=
  match x with
  | State SAFE => inl 0
  | State LOST => inl 1
  | State LEAKED => inl 2
  | State STOLEN => inl 3
  | Other n => inr n
  end.

Definition code_key (c : Z + Z) : option key :=
  match c with
  | inl 0 => Some (State SAFE)
  | inl 1 => Some (State LOST)
  | inl 2 => Some (State LEAKED)
  | inl 3 => Some (State STOLEN)
  | inl _ => None
  | inr n => Some (Other n)
  end.

Global Program Instance key_countable : Countable key :=
  inj_countable key_code code_key _.
Next Obligation. by intros [[]|]. Qed.

(** ** Python floats

    The arithmetic the code uses on probabilities.  Python's [float] is IEEE
    754 binary64: [binary64] below, the kernel's primitive floats with the
    same rounding. *)
Class PyFloat (F : Type) := {
  f_zero : F;                (* [0.0] *)
  f_neg_one : F;             (* [-1.0] *)
  f_tol : F;                 (* [1e-12] *)
  f_add : F → F → F;
  f_sub : F → F → F;
  f_mul : F → F → F;
  f_abs : F → F;
  f_ltb : F → F → bool;
}.

Global Instance binary64 : PyFloat float := {|
  f_zero := 0%float;
  f_neg_one := (-1)%float;
  f_tol := 0x1.19799812dea11p-40%float;
  f_add := PrimFloat.add;
  f_sub := PrimFloat.sub;
  f_mul := PrimFloat.mul;
  f_abs := PrimFloat.abs;
  f_ltb := PrimFloat.ltb;
|}.

(** ** Exceptions *)

Inductive error :=
  | Exception (msg : string)
  | KeyError (k : key)
  | IndexError
  | AssertionError
  | RecursionError.

Inductive result (A : Type) :=
  | OK (a : A)
  | Raise (e : error).
Global Arguments OK {A} a.
Global Arguments Raise {A} e.

Global Instance result_ret : MRet result := λ A, OK.
Global Instance result_bind : MBind result := λ A B f m,
  match m with
  | OK a => f a
  | Raise e => Raise e
  end.

(** A [for] loop whose body may raise. *)
Fixpoint for_each {A B} (body : B → A → result B) (st : B) (l : list A)
    : result B :=
  match l with
  | [] => OK st
  | x :: l' => st' ← body st x; for_each body st' l'
  end.

(** [l[i]] on a list. *)
Definition getitem {A} (l : list A) (i : Z) : result A :=
  let j := if i <? 0 then i + Z.of_nat (length l) else i in
  if j <? 0 then Raise IndexError
  else match l !! Z.to_nat j with
       | Some x => OK x
       | None => Raise IndexError
       end.

(** [d[k]] on a dict. *)
Definition dict_get {V} (d : gmap key V) (k : key) : result V :=
  match d !! k with
  | Some v => OK v
  | None => Raise (KeyError k)
  end.

(** [[f(x) for x in l]] where [f] may raise. *)
Fixpoint comprehension {A B} (f : A → result B) (l : list A)
    : result (list B) :=
  match l with
  | [] => OK []
  | x :: l' => y ← f x; ys ← comprehension f l'; OK (y :: ys)
  end.

(** The dict literal [{SAFE: a, LOST: b, LEAKED: c, STOLEN: d}]. *)
Definition state_dict {F} (a b c d : F) : gmap key F :=
  <[State STOLEN := d]> (<[State LEAKED := c]>
    (<[State LOST := b]> (<[State SAFE := a]> ∅))).

Section computations.
Context {F : Type} `{PyFloat F}.
Variable cs : consts.

(** ** helpers/wallet_enumerations.py, continued *)

(** The body of the inner loop of [enumerateStates]. *)
Definition enumerateStates_body (keyStateProbabilities : gmap key F)
    (stateSuffix : list (list KeyState)) (suffixesProbabilities : list F)
    (keyState : KeyState) (st : list (list KeyState) * list F) (iSuffix : Z)
    : result (list (list KeyState) * list F) :=
  let '(states, probabilities) := st in
  suffix ← getitem stateSuffix iSuffix;
  pSuffix ← getitem suffixesProbabilities iSuffix;
  let states := states ++ [[keyState] ++ suffix] in
  if negb (bool_decide (dom keyStateProbabilities = ∅)) then
    pKey ← dict_get keyStateProbabilities (State keyState);
    OK (states, probabilities ++ [f_mul pKey pSuffix])
  else OK (states, probabilities).

(** [enumerateStates(keyCount, keyStateProbabilities)]; the recursion is on
    [keyCount - 1], [fuel] bounds its depth ([RecursionError] when it runs
    out, which the fuel of [enumerateStates] below excludes). *)
Fixpoint enumerateStates_fuel (fuel : nat) (keyCount : Z)
    (keyStateProbabilities : gmap key F)
    : result (list (list KeyState) * list F) :=
  if keyCount <=? 0 then Raise (Exception "Invalid number of keys")
  else if keyCount =? 1 then
    let states := (λ state, [state]) <$> sorted_KeyStates cs in
    probabilities ←
      comprehension (λ state, dict_get keyStateProbabilities (State state))
                    (sorted_KeyStates cs);
    OK (states, probabilities)
  else
    match fuel with
    | O => Raise RecursionError
    | S fuel' =>
        if bool_decide (dom keyStateProbabilities
                        = list_to_set (State <$> KeyStates cs))
        then
          '(stateSuffix, suffixesProbabilities) ←
            enumerateStates_fuel fuel' (keyCount - 1) keyStateProbabilities;
          for_each (λ st keyState,
              for_each (enumerateStates_body keyStateProbabilities
                          stateSuffix suffixesProbabilities keyState)
                       st (range 0 (Z.of_nat (length stateSuffix))))
            ([], []) (KeyStates cs)
        else Raise AssertionError
    end.

(** A call with [keyCount > 1] makes [keyCount - 1] nested calls.  (The
    interpreter's own limit on the depth of recursion is not modelled.) *)
Definition enumerateStates (keyCount : Z) (keyStateProbabilities : gmap key F)
    : result (list (list KeyState) * list F) :=
  enumerateStates_fuel (Z.to_nat keyCount) keyCount keyStateProbabilities.

(** The dict literal of [ownerAdvKeysFromStates]. *)
Definition bools (keyState : KeyState) : Z * Z :=
  match keyState with
  | SAFE => (1, 0)
  | LOST => (0, 0)
  | LEAKED => (1, 1)
  | STOLEN => (0, 1)
  end.

(** The inner loop of [ownerAdvKeysFromStates]: [(ownerState, advState, i)]. *)
Definition ownerAdv_step (st : Z * Z * Z) (keyState : KeyState) : Z * Z * Z :=
  let '(ownerState, advState, i) := st in
  (ownerState + (bools keyState).1 * 2 ^ i,
   advState + (bools keyState).2 * 2 ^ i,
   i + 1).

(** [ownerAdvKeysFromStates(states)]. *)
Definition ownerAdvKeysFromStates (states : list (list KeyState))
    : list Z * list Z :=
  foldl (λ '(ownerStates, advStates) state,
           let '(ownerState, advState, _) := foldl ownerAdv_step (0, 0, 0) state in
           (ownerStates ++ [ownerState], advStates ++ [advState]))
        ([], []) states.

(** ** helpers/computations.py *)

(** [computeSuccessProbability(wallet, ownerStates, advStates, probabilities)]. *)
Definition computeSuccessProbability (wallet : list Z)
    (ownerStates advStates : list Z) (probabilities : list F) : result F :=
  for_each (λ total i,
      ownerState ← getitem ownerStates i;
      let owner_ok := isCovered ownerState wallet in
      advState ← getitem advStates i;
      let adv_ok := isCovered advState wallet in
      if owner_ok && negb adv_ok then
        pState ← getitem probabilities i;
        OK (f_add total pState)
      else OK total)
    f_zero (range 0 (Z.of_nat (length probabilities))).

(** One round of the loop of [findOptimalWallet], on the probability [p] of
    the wallet. *)
Definition findOptimalWallet_step (st : list (list Z) * F)
    (wallet : list Z) (p : F) : list (list Z) * F :=
  let '(best_wallets, best_prob) := st in
  if f_ltb (f_abs (f_sub p best_prob)) f_tol then
    (best_wallets ++ [wallet], best_prob)
  else if f_ltb best_prob p then ([wallet], p)
  else (best_wallets, best_prob).

(** [findOptimalWallet(wallets, keyCount, keyStateProbabilities)]. *)
Definition findOptimalWallet (wallets : list (list Z)) (keyCount : Z)
    (keyStateProbabilities : gmap key F) : result (list (list Z) * F) :=
  '(states, state_probabilities) ← enumerateStates keyCount keyStateProbabilities;
  let '(ownerStates, advStates) := ownerAdvKeysFromStates states in
  for_each (λ st wallet,
      p ← computeSuccessProbability wallet ownerStates advStates
                                    state_probabilities;
      OK (findOptimalWallet_step st wallet p))
    ([], f_neg_one) wallets.

End computations.


(** * Vocabulary of the properties *)

(** The wallets that extend [base] by an increasing run of combinations above
    [prev], each one not covered by what precedes it. *)
Fixpoint chain (k : Z) (base : list Z) (prev : Z) (ext : list Z) : Prop :=
  match ext with
  | [] => True
  | c :: ext' =>
      prev < c < 2 ^ k ∧ isCovered c base = false ∧ chain k (base ++ [c]) c ext'
  end.

(** A wallet is an antichain when no combination, at any position, is a
    bitwise subset of the combination at another position (equivalently, none
    is a superset of another one). *)
Definition antichain (w : list Z) : Prop :=
  ∀ i j a b, i ≠ j → w !! i = Some a → w !! j = Some b → Z.land a b ≠ a.

(** Relabeling a wallet: [permuteBits] on every combination. *)
Definition relabel (perm : list Z) (wallet : list Z) : list Z :=
  (λ c, permuteBits c perm) <$> wallet.

(** [perm_compose s p] sends position [i] to [s[p[i] - 1]]: first [p], then [s]. *)
Definition perm_compose (s p : list Z) : list Z :=
  (λ t, s !!! Z.to_nat (t - 1)) <$> p.

(** The 1-based position of the first occurrence of [j]. *)
Fixpoint index_of (j : Z) (p : list Z) : Z :=
  match p with
  | [] => 0
  | t :: p' => if t =? j then 1 else 1 + index_of j p'
  end.

(** The permutation that undoes [p]. *)
Definition inverse (p : list Z) : list Z :=
  (λ j, index_of j p) <$> seqZ 1 (Z.of_nat (length p)).

(** The permutations of the key indices [1..k], as [canonicalizeWallet]
    draws them from [range(1, k + 1)]. *)
Definition key_permutation (k : Z) (p : list Z) : Prop :=
  p ≡ₚ range 1 (k + 1).

(** [m] is the least of the tuples of [cand]. *)
Definition least (cand : list (list Z)) (m : list Z) : Prop :=
  m ∈ cand ∧ ∀ t, t ∈ cand → tuple_ltb t m = false.

(** The tuple the loop of [canonicalizeWallet] builds for one permutation. *)
Definition transformed (wallet perm : list Z) : list Z :=
  sorted (relabel perm wallet).

(** The assignments of [keyCount = n + 1] keys, in the order of the lists that
    [enumerateStates] returns. *)
Fixpoint all_states (cs : consts) (n : nat) : list (list KeyState) :=
  match n with
  | O => (λ state, [state]) <$> sorted_KeyStates cs
  | S n' => keyState ← KeyStates cs; (keyState ::.) <$> all_states cs n'
  end.

(** The probability [enumerateStates] attaches to an assignment: the product
    of the probabilities of its key states, multiplied from the right. *)
Fixpoint state_probability {F} `{PyFloat F} (P : KeyState → F)
    (state : list KeyState) : F :=
  match state with
  | [] => f_zero
  | keyState :: suffix =>
      match suffix with
      | [] => P keyState
      | _ :: _ => f_mul (P keyState) (state_probability P suffix)
      end
  end.

(** The two bitmasks [ownerAdvKeysFromStates] computes for an assignment. *)
Definition ownerState_of (state : list KeyState) : Z :=
  (foldl ownerAdv_step (0, 0, 0) state).1.1.
Definition advState_of (state : list KeyState) : Z :=
  (foldl ownerAdv_step (0, 0, 0) state).1.2.

(** Success in a state: the owner is covered and the adversary is not. *)
Definition success (wallet : list Z) (state : list KeyState) : bool :=
  isCovered (ownerState_of state) wallet
  && negb (isCovered (advState_of state) wallet).

(** The keys of a dict that defines exactly the four key states. *)
Definition four_states : gset key :=
  {[State SAFE; State LOST; State LEAKED; State STOLEN]}.

(** The sum of a list of floats, added from left to right. *)
Definition total {F} `{PyFloat F} (l : list F) : F := foldl f_add f_zero l.




(** The state of the owner's, or the adversary's, copy of a key. *)
Definition owner_has (keyState : KeyState) : bool :=
  match keyState with SAFE | LEAKED => true | LOST | STOLEN => false end.
Definition adv_has (keyState : KeyState) : bool :=
  match keyState with LEAKED | STOLEN => true | SAFE | LOST => false end.

(** The bitmask with bit [i] set when the [i]-th boolean is true. *)
Fixpoint bits_mask (bs : list bool) : Z :=
  match bs with
  | [] => 0
  | b :: bs' => Z.b2z b + 2 * bits_mask bs'
  end.


Global Instance KeyState_inhabited : Inhabited KeyState := populate SAFE.

(** What [deduplicateWalletsByArchitecture] appends to [unique] when it starts
    with the set [seen]: the wallets whose canonical form is new. *)
Fixpoint keep_new (keyCount : Z) (seen : gset (option (list Z)))
    (wallets : list (list Z)) : list (list Z) :=
  match wallets with
  | [] => []
  | wallet :: wallets' =>
      let canon := canonicalizeWallet wallet keyCount in
      if decide (canon ∈ seen) then keep_new keyCount seen wallets'
      else wallet :: keep_new keyCount ({[canon]} ∪ seen) wallets'
  end.

(** The binary digits of a positive number as characters, the least
    significant one first. *)
Fixpoint bit_chars (p : positive) : list ascii :=
  match p with
  | xH => ["1"%char]
  | xO p' => "0"%char :: bit_chars p'
  | xI p' => "1"%char :: bit_chars p'
  end.

(** [join] on lists of characters. *)
Fixpoint join_chars (sep : list ascii) (l : list (list ascii)) : list ascii :=
  match l with
  | [] => []
  | x :: l' =>
      match l' with
      | [] => x
      | _ :: _ => x ++ sep ++ join_chars sep l'
      end
  end.

(** The decimal digits. *)
Definition digits : list ascii := list_ascii_of_string "0123456789".

(** Every table [consts.py] can hold: the orders of the four key states. *)
Definition all_consts : list consts :=
  keyStates ← permutations [SAFE; LOST; LEAKED; STOLEN];
  sortedKeyStates ← permutations [SAFE; LOST; LEAKED; STOLEN];
  [{| KeyStates := keyStates; sorted_KeyStates := sortedKeyStates |}].

Set Warnings "-inexact-float".

(** In binary64, for two keys and the probabilities [0.7], [0.1], [0.1],
    [0.1000000009]: the probabilities of [enumerateStates] do not add up to 1
    within [1e-9]. *)
Definition mass_drifts (cs : consts) : bool :=
  match enumerateStates cs 2 (state_dict 0.7 0.1 0.1 0.1000000009)%float with
  | OK (_, probabilities) => (1e-9 <? abs (total probabilities - 1))%float
  | Raise _ => false
  end.

(** In binary64, for two keys and the probabilities [0.5], [0.2499999999991],
    [0.2500000000002], [7e-13]: the search on [[1,2]], [[1]], [[3]] returns
    [[3]] alone, and [[1]] is within [1e-12] of the best probability. *)
Definition near_tie_dropped (cs : consts) : bool :=
  let p := (state_dict 0.5 0.2499999999991 0.2500000000002 7e-13)%float in
  match enumerateStates cs 2 p, findOptimalWallet cs [[1; 2]; [1]; [3]] 2 p with
  | OK (states, probabilities), OK (bestWallets, bestProbability) =>
      let '(ownerStates, advStates) := ownerAdvKeysFromStates states in
      match computeSuccessProbability [1] ownerStates advStates probabilities with
      | OK p1 =>
          bool_decide (bestWallets = [[3]])
          && (abs (p1 - bestProbability) <? 1e-12)%float
      | Raise _ => false
      end
  | _, _ => false
  end.

(** In binary64, for three keys and the probabilities [0.52], [0], [0],
    [0.48]: the wallets [[1,2]] and [[2,4]] score differently. *)
Definition relabel_rounds (cs : consts) : bool :=
  match enumerateStates cs 3 (state_dict 0.52 0 0 0.48)%float with
  | OK (states, probabilities) =>
      let '(ownerStates, advStates) := ownerAdvKeysFromStates states in
      match computeSuccessProbability [1; 2] ownerStates advStates probabilities,
            computeSuccessProbability [2; 4] ownerStates advStates probabilities
      with
      | OK q, OK q' => negb (q =? q')%float
      | _, _ => false
      end
  | Raise _ => false
  end.

(** * Properties *)

(** ** Coverage *)

Lemma isCovered_true m w :
  isCovered m w = true ↔ ∃ c, c ∈ w ∧ Z.land c m = c.
Proof.
  induction w as [|c w IH]; simpl.
  - split; [done|]. intros (c & Hc & _). by apply elem_of_nil in Hc.
  - destruct (Z.eqb_spec (Z.land c m) c) as [Heq|Hne].
    + split; [|done]. intros _. exists c. split; [left|done].
    + rewrite IH. split.
      * intros (c' & Hc' & Hl). exists c'. split; [by right|done].
      * intros (c' & [->|Hc']%elem_of_cons & Hl); [done|by exists c'].
Qed.

Lemma isCovered_false m w :
  isCovered m w = false ↔ ∀ c, c ∈ w → Z.land c m ≠ c.
Proof.
  rewrite <-not_true_iff_false, isCovered_true. split.
  - intros Hn c Hc Hl. apply Hn. by exists c.
  - intros Hall (c & Hc & Hl). by apply (Hall c).
Qed.

(** C4: coverage is monotonic in the available-keys bitmask: when [m] is a
    bitwise subset of [m'] ([m & m' == m]) and [isCovered(m, w)] holds, then
    [isCovered(m', w)] holds. *)
Theorem isCovered_monotone (w : list Z) (m m' : Z) :
  Z.land m m' = m → isCovered m w = true → isCovered m' w = true.
Proof.
  intros Hsub. rewrite !isCovered_true. intros (c & Hc & Hl).
  exists c. split; [done|].
  rewrite <-Hl at 1. by rewrite <-Z.land_assoc, Hsub.
Qed.

Lemma isCovered_monotone_witness :
  Z.land 1 3 = 1 ∧ isCovered 1 [1; 6] = true ∧ isCovered 3 [1; 6] = true.
Proof.
  split; [reflexivity|]. split; [reflexivity|].
  apply (isCovered_monotone [1; 6] 1 3); reflexivity.
Defined.

(** ** Enumeration of the static wallets *)

(** C8: for two keys the enumeration without deduplication is
    [[1], [1,2], [2], [3]], in that order, and deduplication by architecture
    keeps [[1], [1,2], [3]]: the wallets [[1]] and [[2]] collapse. *)
Theorem enumerateStaticWallets_two_keys :
  enumerateStaticWallets 2 false = [[1]; [1; 2]; [2]; [3]]
  ∧ deduplicateWalletsByArchitecture (enumerateStaticWallets 2 false) 2
    = [[1]; [1; 2]; [3]]
  ∧ canonicalizeWallet [1] 2 = canonicalizeWallet [2] 2.
Proof. by vm_compute. Qed.

Lemma enumerateStaticSubWallets_fuel_spec fuel k base prev w :
  w ∈ enumerateStaticSubWallets_fuel fuel base prev k ↔
  ∃ ext, w = base ++ ext ∧ ext ≠ [] ∧ (length ext ≤ fuel)%nat
         ∧ chain k base prev ext.
Proof.
  revert base prev w. induction fuel as [|fuel IH]; intros base prev w; simpl.
  - split; [by intros ?%elem_of_nil|].
    intros ([|c ext] & _ & Hne & Hlen & _); [done|simpl in Hlen; lia].
  - rewrite list_elem_of_bind. unfold range. setoid_rewrite elem_of_seqZ. split.
    + intros (c & Hw & Hc).
      destruct (isCovered c base) eqn:Hcov; simpl in Hw;
        [by apply elem_of_nil in Hw|].
      apply elem_of_cons in Hw as [->|Hw].
      * exists [c]. simpl. repeat split; try done; lia.
      * apply IH in Hw as (ext & -> & Hne & Hlen & Hch).
        exists (c :: ext). rewrite <-app_assoc. simpl.
        repeat split; try done; lia.
    + intros ([|c ext] & -> & Hne & Hlen & Hch); [done|].
      simpl in Hlen, Hch. destruct Hch as (Hc & Hcov & Hch).
      exists c. rewrite Hcov. simpl. split; [|lia].
      destruct ext as [|c' ext]; [left|right].
      apply IH. exists (c' :: ext). rewrite <-app_assoc.
      split; [done|]. split; [done|]. split; [simpl in *; lia|done].
Qed.

Lemma chain_length k base prev ext :
  chain k base prev ext → Z.of_nat (length ext) ≤ Z.max 0 (2 ^ k - 1 - prev).
Proof.
  revert base prev. induction ext as [|c ext IH]; intros base prev; simpl.
  - lia.
  - intros (Hc & _ & Hch). apply IH in Hch. lia.
Qed.

Lemma enumerateStaticSubWallets_spec k base prev w :
  w ∈ enumerateStaticSubWallets base prev k ↔
  ∃ ext, w = base ++ ext ∧ ext ≠ [] ∧ chain k base prev ext.
Proof.
  unfold enumerateStaticSubWallets.
  rewrite enumerateStaticSubWallets_fuel_spec. split.
  - intros (ext & ? & ? & _ & ?). by exists ext.
  - intros (ext & ? & Hne & Hch). exists ext. repeat split; [done..| |done].
    apply chain_length in Hch as Hlen.
    destruct ext; [done|]. simpl in *. lia.
Qed.

(** More fuel than the bound changes nothing. *)
Lemma enumerateStaticSubWallets_fuel_enough fuel k base prev :
  (Z.to_nat (2 ^ k - prev) ≤ fuel)%nat →
  enumerateStaticSubWallets_fuel fuel base prev k
  = enumerateStaticSubWallets base prev k.
Proof.
  unfold enumerateStaticSubWallets.
  assert (∀ f1 f2 base prev,
    (Z.to_nat (2 ^ k - prev) ≤ f1)%nat → (Z.to_nat (2 ^ k - prev) ≤ f2)%nat →
    enumerateStaticSubWallets_fuel f1 base prev k
    = enumerateStaticSubWallets_fuel f2 base prev k) as Hgen; [|by auto].
  clear. intros f1. induction f1 as [|f1 IH]; intros f2 base prev H1 H2.
  - destruct f2 as [|f2]; [done|]. simpl. unfold range.
    rewrite seqZ_nil; [done|lia].
  - destruct f2 as [|f2].
    + simpl. unfold range. rewrite seqZ_nil; [done|lia].
    + simpl. apply Forall_bind_ext, Forall_forall. intros c Hc.
      unfold range in Hc. apply elem_of_seqZ in Hc.
      destruct (isCovered c base); simpl; [done|].
      f_equal. apply IH; lia.
Qed.

Lemma antichain_alt w :
  antichain w ↔
  NoDup w ∧ ∀ a b, a ∈ w → b ∈ w → a ≠ b → Z.land a b ≠ a.
Proof.
  split.
  - intros Hw. split.
    + apply NoDup_alt. intros i j a Hi Hj.
      destruct (decide (i = j)) as [|Hne]; [done|].
      destruct (Hw i j a a Hne Hi Hj). apply Z.land_diag.
    + intros a b [i Hi]%list_elem_of_lookup [j Hj]%list_elem_of_lookup Hab.
      apply (Hw i j); [|done..]. intros ->. congruence.
  - intros [Hnd Hw] i j a b Hij Hi Hj. apply Hw.
    + by eapply list_elem_of_lookup_2.
    + by eapply list_elem_of_lookup_2.
    + intros ->. apply Hij. by eapply NoDup_lookup.
Qed.

Lemma land_le_r a b : 0 ≤ b → Z.land a b ≤ b.
Proof.
  intros Hb. rewrite <-(Z.lor_ldiff_and b a) at 2.
  rewrite <-Z.lxor_lor, <-Z.add_nocarry_lxor.
  - assert (0 ≤ Z.ldiff b a) by (apply Z.ldiff_nonneg; auto).
    rewrite (Z.land_comm b a). lia.
  - rewrite Z.land_assoc, (Z.land_comm (Z.ldiff b a)), <-Z.land_assoc.
    by rewrite Z.land_ldiff, Z.land_0_r.
  - rewrite Z.land_assoc, (Z.land_comm (Z.ldiff b a)), <-Z.land_assoc.
    by rewrite Z.land_ldiff, Z.land_0_r.
Qed.

Lemma chain_bounds k base prev ext :
  chain k base prev ext →
  Forall (λ c, prev < c < 2 ^ k) ext ∧ StronglySorted Z.lt ext.
Proof.
  revert base prev. induction ext as [|c ext IH]; intros base prev; simpl.
  - split; constructor.
  - intros (Hc & _ & [Hall Hsort]%IH). split.
    + constructor; [done|]. eapply Forall_impl; [done|]. simpl. lia.
    + constructor; [done|]. eapply Forall_impl; [done|]. simpl. lia.
Qed.

Lemma chain_antichain k base prev ext :
  0 ≤ prev → Forall (λ b, 0 ≤ b ≤ prev) base → antichain base →
  chain k base prev ext → antichain (base ++ ext).
Proof.
  revert base prev. induction ext as [|c ext IH]; intros base prev; simpl.
  - intros _ _ ? _. by rewrite app_nil_r.
  - intros Hprev Hbase Hanti (Hc & Hcov & Hch).
    rewrite cons_middle, (assoc_L (++)). apply (IH _ c); [lia| | |done].
    + apply Forall_app. split; [|apply Forall_singleton; lia].
      eapply Forall_impl; [done|]. simpl. lia.
    + rewrite Forall_forall in Hbase. rewrite isCovered_false in Hcov.
      apply antichain_alt in Hanti as [Hnd Hanti]. apply antichain_alt. split.
      * apply NoDup_app. split; [done|]. split; [|apply NoDup_singleton].
        intros b Hb ->%list_elem_of_singleton. apply Hbase in Hb. lia.
      * intros a b. rewrite !elem_of_app, !list_elem_of_singleton.
        intros [Ha| ->] [Hb| ->] Hab; [by auto|by auto| |done].
        apply Hbase in Hb. pose proof (land_le_r c b). lia.
Qed.

Lemma chain_intro k base prev ext :
  antichain (base ++ ext) → StronglySorted Z.lt ext →
  Forall (λ c, prev < c < 2 ^ k) ext → chain k base prev ext.
Proof.
  revert base prev. induction ext as [|c ext IH]; intros base prev; simpl; [done|].
  intros Hanti Hsort Hall.
  apply StronglySorted_inv in Hsort as [Hsort Hlt].
  apply Forall_cons in Hall as [Hc Hall]. split; [done|]. split.
  - apply isCovered_false. intros b Hb.
    apply antichain_alt in Hanti as [Hnd Hanti].
    apply NoDup_app in Hnd as (_ & Hnd & _).
    apply Hanti.
    + apply elem_of_app. by left.
    + apply elem_of_app. right. left.
    + intros ->. apply (Hnd c); [done|left].
  - apply IH; [by rewrite <-(assoc_L (++)), <-cons_middle|done|].
    rewrite Forall_forall in Hall, Hlt. apply Forall_forall. intros x Hx.
    specialize (Hall x Hx). specialize (Hlt x Hx). lia.
Qed.

(** The enumerated wallets, seen from the empty base wallet. *)
Lemma enumerateStaticWallets_spec k w :
  w ∈ enumerateStaticWallets k false ↔
  w ≠ [] ∧ Forall (λ c, 1 ≤ c ≤ 2 ^ k - 1) w
  ∧ StronglySorted Z.lt w ∧ antichain w.
Proof.
  unfold enumerateStaticWallets. rewrite enumerateStaticSubWallets_spec. split.
  - intros (ext & -> & Hne & Hch). simpl.
    destruct (chain_bounds _ _ _ _ Hch) as [Hall Hsort].
    split; [done|]. split; [|split; [done|]].
    + eapply Forall_impl; [done|]. simpl. lia.
    + apply (chain_antichain k [] 0 ext); [done|constructor| |done].
      intros i j a b _ Hi. by rewrite lookup_nil in Hi.
  - intros (Hne & Hall & Hsort & Hanti). exists w. split; [done|].
    split; [done|]. apply chain_intro; [done..|].
    eapply Forall_impl; [done|]. simpl. lia.
Qed.

Lemma enumerateStaticSubWallets_fuel_NoDup fuel k base prev :
  NoDup (enumerateStaticSubWallets_fuel fuel base prev k).
Proof.
  revert base prev. induction fuel as [|fuel IH]; intros base prev; simpl.
  - constructor.
  - apply NoDup_bind; [| |apply NoDup_seqZ].
    + intros c1 c2 w _ _ H1 H2.
      destruct (isCovered c1 base); [by apply elem_of_nil in H1|].
      destruct (isCovered c2 base); [by apply elem_of_nil in H2|].
      simpl in H1, H2.
      assert (∀ c, w ∈ (base ++ [c])
                 :: enumerateStaticSubWallets_fuel fuel (base ++ [c]) c k →
                 ∃ ext, w = base ++ c :: ext) as Hshape.
      { intros c [->|Hw]%elem_of_cons; [by exists []|].
        apply enumerateStaticSubWallets_fuel_spec in Hw as (ext & -> & _).
        exists ext. by rewrite <-(assoc_L (++)). }
      destruct (Hshape _ H1) as [e1 ->]. destruct (Hshape _ H2) as [e2 He].
      apply app_inv_head in He. congruence.
    + intros c _. destruct (isCovered c base); simpl; [constructor|].
      constructor; [|apply IH].
      intros (ext & He & Hne & _)%enumerateStaticSubWallets_fuel_spec.
      rewrite <-(app_nil_r (base ++ [c])) in He at 1.
      apply app_inv_head in He. congruence.
Qed.

Lemma StronglySorted_lt_seqZ m n : StronglySorted Z.lt (seqZ m n).
Proof.
  destruct (decide (n ≤ 0)) as [|Hn]; [rewrite seqZ_nil by done; constructor|].
  rewrite <-(Z2Nat.id n) by lia. generalize (Z.to_nat n). clear. intros n.
  revert m. induction n as [|n IH]; intros m.
  - rewrite seqZ_nil by lia. constructor.
  - rewrite seqZ_cons by lia. replace (Z.pred (Z.of_nat (S n))) with (Z.of_nat n) by lia.
    constructor; [apply IH|]. apply Forall_seqZ. intros; lia.
Qed.

Lemma StronglySorted_filter {A} (R : relation A) (P : A → Prop)
    `{∀ x, Decision (P x)} (l : list A) :
  StronglySorted R l → StronglySorted R (filter P l).
Proof.
  induction 1 as [|x l Hl IH Hx]; [constructor|].
  rewrite filter_cons. destruct (decide (P x)); [|done].
  constructor; [done|]. rewrite Forall_forall in Hx. apply Forall_forall.
  intros y [_ Hy]%list_elem_of_filter. by apply Hx.
Qed.

Lemma StronglySorted_lt_eq (l1 l2 : list Z) :
  StronglySorted Z.lt l1 → StronglySorted Z.lt l2 →
  (∀ c, c ∈ l1 ↔ c ∈ l2) → l1 = l2.
Proof.
  intros H1 H2 Heq.
  assert (∀ l, StronglySorted Z.lt l → NoDup l) as Hnd.
  { induction 1 as [|x l Hl IH Hx]; constructor; [|done].
    rewrite Forall_forall in Hx. intros ?%Hx. lia. }
  apply (StronglySorted_unique_strong Z.lt); [intros; lia|done..|].
  apply NoDup_Permutation; auto.
Qed.

(** C1: for [keyCount >= 1] the wallets enumerated without deduplication are
    exactly the non-empty antichains of masks in [1, 2^keyCount - 1]: every
    wallet of the list is one, no two wallets at different positions of the
    list have the same set of combinations, and every such antichain is the
    set of combinations of a wallet of the list. *)
Theorem enumerateStaticWallets_antichains (keyCount : Z) :
  1 ≤ keyCount →
  let wallets := enumerateStaticWallets keyCount false in
  (∀ w, w ∈ wallets →
     w ≠ [] ∧ Forall (λ c, 1 ≤ c ≤ 2 ^ keyCount - 1) w ∧ antichain w)
  ∧ (∀ i j wi wj, i ≠ j → wallets !! i = Some wi → wallets !! j = Some wj →
     ¬ (∀ c, c ∈ wi ↔ c ∈ wj))
  ∧ (∀ s, s ≠ [] → Forall (λ c, 1 ≤ c ≤ 2 ^ keyCount - 1) s → antichain s →
     ∃ w, w ∈ wallets ∧ w ≡ₚ s ∧ ∀ c, c ∈ w ↔ c ∈ s).
Proof.
  intros _ wallets. split; [|split].
  - intros w (Hne & Hall & _ & Hanti)%enumerateStaticWallets_spec. done.
  - intros i j wi wj Hij Hi Hj Hsame. apply Hij.
    assert (wi = wj) as <-.
    { apply list_elem_of_lookup_2, enumerateStaticWallets_spec in Hi, Hj.
      apply StronglySorted_lt_eq; [apply Hi|apply Hj|done]. }
    eapply NoDup_lookup; [|done..].
    apply enumerateStaticSubWallets_fuel_NoDup.
  - intros s Hne Hall Hanti.
    set (w := filter (λ c, c ∈ s) (range 1 (2 ^ keyCount))).
    assert (∀ c, c ∈ w ↔ c ∈ s) as Hw.
    { intros c. unfold w, range. rewrite list_elem_of_filter, elem_of_seqZ.
      rewrite Forall_forall in Hall. split; [tauto|].
      intros Hc. specialize (Hall c Hc). split; [done|lia]. }
    apply antichain_alt in Hanti as [Hnd Hanti].
    assert (NoDup w) as Hndw by apply NoDup_filter, NoDup_seqZ.
    exists w. split; [|split; [by apply NoDup_Permutation|done]].
    apply enumerateStaticWallets_spec. split; [|split; [|split]].
    + destruct s as [|c s]; [done|]. intros Hnil.
      assert (c ∈ w) as Hc by (apply Hw; left). rewrite Hnil in Hc.
      by apply elem_of_nil in Hc.
    + rewrite Forall_forall in Hall. apply Forall_forall.
      intros c Hc. by apply Hall, Hw.
    + apply StronglySorted_filter, StronglySorted_lt_seqZ.
    + apply antichain_alt. split; [done|].
      intros a b Ha Hb. apply Hanti; by apply Hw.
Qed.

Lemma enumerateStaticWallets_antichains_witness :
  1 ≤ 2 ∧ ∃ w, w ∈ enumerateStaticWallets 2 false ∧ w ≡ₚ [2; 1].
Proof.
  split; [lia|].
  destruct (enumerateStaticWallets_antichains 2) as (_ & _ & Hall); [lia|].
  destruct (Hall [2; 1]) as (w & Hw & Hp & _).
  - done.
  - repeat constructor; lia.
  - intros [|[|i]] [|[|j]] a b Hij Hi Hj; simplify_eq/=; done.
  - by exists w.
Defined.

(** ** Relabeling of the keys *)

(** The test [number & (1 << j)] of [permuteBits] reads bit [j]. *)
Lemma land_shiftl_1_testbit x j :
  0 ≤ j → negb (Z.land x (Z.shiftl 1 j) =? 0) = Z.testbit x j.
Proof.
  intros Hj. rewrite Z.shiftl_1_l.
  destruct (Z.testbit x j) eqn:Hb.
  - apply negb_true_iff, Z.eqb_neq. intros H0.
    assert (Z.testbit (Z.land x (2 ^ j)) j = true) as Ht.
    { by rewrite Z.land_spec, Hb, Z.pow2_bits_true. }
    by rewrite H0, Z.bits_0 in Ht.
  - apply negb_false_iff, Z.eqb_eq, Z.bits_inj'. intros m Hm.
    rewrite Z.land_spec, Z.bits_0, Z.pow2_bits_eqb by done.
    destruct (Z.eqb_spec j m) as [->|]; [by rewrite Hb|apply andb_false_r].
Qed.

Lemma enumerate_lookup {A} (l : list A) start i :
  enumerate start l !! i = (λ x, (start + Z.of_nat i, x)) <$> l !! i.
Proof.
  revert start i. induction l as [|x l IH]; intros start [|i]; simpl; [done..| |].
  - by rewrite Z.add_0_r.
  - rewrite IH. destruct (l !! i); simpl; [|done]. do 2 f_equal. lia.
Qed.

Lemma elem_of_enumerate {A} (l : list A) start j x :
  (j, x) ∈ enumerate start l ↔
  ∃ i, l !! i = Some x ∧ j = start + Z.of_nat i.
Proof.
  rewrite list_elem_of_lookup. setoid_rewrite enumerate_lookup. split.
  - intros (i & Hi). destruct (l !! i) eqn:E; simplify_eq/=. by exists i.
  - intros (i & Hi & ->). exists i. by rewrite Hi.
Qed.

(** Bit [m] of [permuteBits x perm] is set exactly when some position [i] of
    the permutation has target [m + 1] and bit [i] of [x] is set. *)
Lemma permuteBits_testbit x perm m :
  Forall (λ t, 1 ≤ t) perm → 0 ≤ m →
  Z.testbit (permuteBits x perm) m = true ↔
  ∃ i, perm !! i = Some (m + 1) ∧ Z.testbit x (Z.of_nat i) = true.
Proof.
  intros Hperm Hm. unfold permuteBits.
  assert (∀ l r,
    Forall (λ p : Z * Z, 1 ≤ p.1 ∧ 1 ≤ p.2) l →
    Z.testbit (foldl (λ result '(i, target_pos),
        if negb (Z.land x (Z.shiftl 1 (i - 1)) =? 0)
        then Z.lor result (Z.shiftl 1 (target_pos - 1)) else result) r l) m
      = true ↔
    Z.testbit r m = true
    ∨ ∃ i, (i, m + 1) ∈ l ∧ Z.testbit x (i - 1) = true) as Hfold.
  { induction l as [|[i t] l IH]; intros r Hl; simpl.
    - split; [by left|]. intros [?|(i & []%elem_of_nil & _)]. done.
    - apply Forall_cons in Hl as [[Hi Ht] Hl]. simpl in Hi, Ht.
      rewrite IH by done. rewrite land_shiftl_1_testbit by lia.
      setoid_rewrite elem_of_cons.
      destruct (Z.testbit x (i - 1)) eqn:Hb.
      + rewrite Z.lor_spec, Z.shiftl_1_l, Z.pow2_bits_eqb by lia.
        rewrite orb_true_iff, Z.eqb_eq. split.
        * intros [[?|Heq]|(i' & ? & ?)]; [by left| |by eauto].
          right. exists i. split; [left; f_equal; lia|done].
        * intros [?|(i' & [?|?] & ?)]; [by auto| |by eauto].
          simplify_eq. left. right. lia.
      + split.
        * intros [?|(i' & ? & ?)]; [by left|by eauto].
        * intros [?|(i' & [?|?] & ?)]; [by auto| |by eauto].
          simplify_eq. congruence. }
  rewrite Hfold.
  - rewrite Z.bits_0. split.
    + intros [?|(j & (i & Hi & ->)%elem_of_enumerate & Hb)]; [done|].
      exists i. split; [done|]. by replace (1 + Z.of_nat i - 1) with (Z.of_nat i) in Hb by lia.
    + intros (i & Hi & Hb). right. exists (1 + Z.of_nat i). split.
      * apply elem_of_enumerate. by exists i.
      * by replace (1 + Z.of_nat i - 1) with (Z.of_nat i) by lia.
  - rewrite Forall_forall in Hperm. apply Forall_forall.
    intros [j t] (i & Hi & ->)%elem_of_enumerate. simpl. split; [lia|].
    apply Hperm. by eapply list_elem_of_lookup_2.
Qed.

Lemma permuteBits_nonneg x perm : 0 ≤ permuteBits x perm.
Proof.
  unfold permuteBits. generalize (enumerate 1 perm). intros l.
  cut (∀ r, 0 ≤ r → 0 ≤ foldl (λ result '(i, target_pos),
        if negb (Z.land x (Z.shiftl 1 (i - 1)) =? 0)
        then Z.lor result (Z.shiftl 1 (target_pos - 1)) else result) r l).
  { intros H. by apply H. }
  induction l as [|[i t] l IH]; intros r Hr; simpl; [done|].
  apply IH. destruct (negb _); [|done].
  apply Z.lor_nonneg. split; [done|]. apply Z.shiftl_nonneg. lia.
Qed.

Section key_permutations.
Variable k : Z.
Implicit Types s p : list Z.

Lemma key_perm_bounds p :
  key_permutation k p →
  Forall (λ t, 1 ≤ t ≤ k) p ∧ length p = Z.to_nat k ∧ NoDup p.
Proof.
  unfold key_permutation. intros Hp. split; [|split].
  - apply Forall_forall. intros t Ht. rewrite Hp in Ht.
    unfold range in Ht. apply elem_of_seqZ in Ht. lia.
  - rewrite Hp. unfold range. rewrite length_seqZ. lia.
  - rewrite Hp. apply NoDup_seqZ.
Qed.

Lemma key_perm_pos p : key_permutation k p → Forall (λ t, 1 ≤ t) p.
Proof.
  intros [Hp _]%key_perm_bounds. eapply Forall_impl; [done|]. simpl. lia.
Qed.

Lemma compose_range s :
  length s = Z.to_nat k → perm_compose s (range 1 (k + 1)) = s.
Proof.
  intros Hlen. apply list_eq. intros i. unfold perm_compose, range.
  rewrite list_lookup_fmap.
  destruct (decide (Z.of_nat i < k + 1 - 1)) as [Hi|Hi].
  - rewrite lookup_seqZ_lt by done. simpl.
    replace (Z.to_nat (1 + Z.of_nat i - 1)) with i by lia.
    symmetry. apply list_lookup_lookup_total_lt. lia.
  - rewrite lookup_seqZ_ge by lia. simpl. symmetry.
    apply lookup_ge_None. lia.
Qed.

Lemma compose_key_perm s p : key_permutation k s → key_permutation k p → key_permutation k (perm_compose s p).
Proof.
  unfold key_permutation. intros Hs Hp. unfold perm_compose. rewrite Hp.
  fold (perm_compose s (range 1 (k + 1))). rewrite compose_range; [done|].
  by apply key_perm_bounds.
Qed.

Lemma compose_assoc s t p :
  length t = Z.to_nat k → Forall (λ t, 1 ≤ t ≤ k) p →
  perm_compose (perm_compose s t) p = perm_compose s (perm_compose t p).
Proof.
  intros Hlen Hp. unfold perm_compose. rewrite <-list_fmap_compose.
  apply Forall_fmap_ext. eapply Forall_impl; [done|]. simpl.
  intros j Hj.
  by rewrite (list_lookup_total_fmap (λ u, s !!! Z.to_nat (u - 1)) t) by lia.
Qed.

Lemma permuteBits_compose x s p :
  key_permutation k s → key_permutation k p →
  permuteBits (permuteBits x p) s = permuteBits x (perm_compose s p).
Proof.
  intros Hs Hp. apply Z.bits_inj'. intros m Hm. apply eq_true_iff_eq.
  pose proof (compose_key_perm s p Hs Hp) as Hsp.
  rewrite !permuteBits_testbit by eauto using key_perm_pos.
  destruct (key_perm_bounds s Hs) as (Hsb & Hsl & _).
  destruct (key_perm_bounds p Hp) as (Hpb & Hpl & _).
  rewrite Forall_forall in Hpb. split.
  - intros (j & Hj & Hb).
    apply permuteBits_testbit in Hb as (i & Hi & Hb);
      [|by eauto using key_perm_pos|lia].
    exists i. split; [|done]. unfold perm_compose.
    rewrite list_lookup_fmap, Hi. simpl. f_equal.
    replace (Z.to_nat (Z.of_nat j + 1 - 1)) with j by lia.
    by apply list_lookup_total_correct.
  - intros (i & Hi & Hb). unfold perm_compose in Hi.
    rewrite list_lookup_fmap in Hi.
    destruct (p !! i) as [t|] eqn:Ht; simplify_eq/=.
    assert (1 ≤ t ≤ k) as Htk by (by eapply Hpb, list_elem_of_lookup_2).
    exists (Z.to_nat (t - 1)). split.
    + rewrite list_lookup_lookup_total_lt by lia. by f_equal.
    + apply permuteBits_testbit; [by eauto using key_perm_pos|lia|].
      exists i. split; [|done]. rewrite Ht. f_equal. lia.
Qed.

Lemma relabel_compose w s p :
  key_permutation k s → key_permutation k p →
  relabel s (relabel p w) = relabel (perm_compose s p) w.
Proof.
  intros Hs Hp. unfold relabel. rewrite <-list_fmap_compose.
  apply list_fmap_ext. intros _ c _. simpl. by apply permuteBits_compose.
Qed.

Lemma index_of_elem j p :
  j ∈ p →
  1 ≤ index_of j p ≤ Z.of_nat (length p)
  ∧ p !! Z.to_nat (index_of j p - 1) = Some j.
Proof.
  induction p as [|t p IH]; [by intros ?%elem_of_nil|]. simpl.
  intros Hj. destruct (Z.eqb_spec t j) as [->|Hne].
  - split; [lia|done].
  - apply elem_of_cons in Hj as [?|Hj]; [done|].
    destruct (IH Hj) as [Hb Hl]. split; [lia|].
    replace (Z.to_nat (1 + index_of j p - 1))
      with (S (Z.to_nat (index_of j p - 1))) by lia.
    done.
Qed.

Lemma index_of_lookup p i t :
  NoDup p → p !! i = Some t → index_of t p = 1 + Z.of_nat i.
Proof.
  intros Hnd Hi.
  destruct (index_of_elem t p) as [Hb Hl]; [by eapply list_elem_of_lookup_2|].
  pose proof (NoDup_lookup _ _ _ _ Hnd Hi Hl). lia.
Qed.

Lemma inverse_key_perm p : key_permutation k p → key_permutation k (inverse p).
Proof.
  intros Hp. destruct (key_perm_bounds p Hp) as (Hpb & Hpl & Hnd).
  assert (∀ j, j ∈ seqZ 1 k → j ∈ p) as Hin.
  { intros j Hj. unfold key_permutation in Hp. rewrite Hp. unfold range.
    by replace (k + 1 - 1) with k by lia. }
  unfold key_permutation, range. replace (k + 1 - 1) with k by lia.
  apply submseteq_length_Permutation.
  - apply NoDup_submseteq.
    + unfold inverse. rewrite Hpl.
      destruct (decide (0 ≤ k)); [|rewrite Z2Nat.nonpos by lia; constructor].
      rewrite Z2Nat.id by done.
      apply NoDup_fmap_2_strong; [|apply NoDup_seqZ].
      intros j1 j2 H1%Hin H2%Hin Heq.
      destruct (index_of_elem j1 p H1) as [_ Hl1].
      destruct (index_of_elem j2 p H2) as [_ Hl2].
      rewrite Heq in Hl1. congruence.
    + intros j. unfold inverse. rewrite list_elem_of_fmap.
      intros (i & -> & Hi). rewrite Hpl in Hi.
      destruct (decide (0 ≤ k));
        [|rewrite Z2Nat.nonpos in Hi by lia; by apply elem_of_nil in Hi].
      rewrite Z2Nat.id in Hi by done.
      destruct (index_of_elem i p (Hin i Hi)) as [Hb _].
      apply elem_of_seqZ. lia.
  - unfold inverse. rewrite length_fmap, !length_seqZ. lia.
Qed.

Lemma compose_inverse p : key_permutation k p → perm_compose (inverse p) p = range 1 (k + 1).
Proof.
  intros Hp. destruct (key_perm_bounds p Hp) as (Hpb & Hpl & Hnd).
  apply list_eq. intros i. unfold perm_compose, range.
  rewrite list_lookup_fmap.
  destruct (p !! i) as [t|] eqn:Ht; simpl.
  - assert (1 ≤ t ≤ k) as Htk.
    { rewrite Forall_forall in Hpb. by eapply Hpb, list_elem_of_lookup_2. }
    apply lookup_lt_Some in Ht as Hi.
    rewrite lookup_seqZ_lt by lia. f_equal. unfold inverse.
    rewrite (list_lookup_total_fmap (λ j, index_of j p))
      by (rewrite length_seqZ; lia).
    rewrite lookup_total_seqZ_lt by lia.
    replace (1 + Z.of_nat (Z.to_nat (t - 1))) with t by lia.
    by apply index_of_lookup.
  - apply lookup_ge_None in Ht. symmetry. apply lookup_seqZ_ge. lia.
Qed.

(** Every permutation of the keys is reached by composing with [p]. *)
Lemma compose_surjective p s' :
  key_permutation k p → key_permutation k s' →
  ∃ s, key_permutation k s ∧ perm_compose s p = s'.
Proof.
  intros Hp Hs'. pose proof (inverse_key_perm p Hp) as Hi.
  exists (perm_compose s' (inverse p)). split; [by apply compose_key_perm|].
  rewrite compose_assoc.
  - rewrite compose_inverse by done. apply compose_range.
    by apply key_perm_bounds.
  - by apply key_perm_bounds.
  - by apply key_perm_bounds.
Qed.
End key_permutations.

(** ** [itertools.permutations] *)

Lemma elem_of_selections {A} (l : list A) x rest :
  (x, rest) ∈ selections l ↔ ∃ l1 l2, l = l1 ++ x :: l2 ∧ rest = l1 ++ l2.
Proof.
  revert x rest. induction l as [|y l IH]; intros x rest; simpl.
  - split; [by intros ?%elem_of_nil|]. by intros ([|??] & ? & ? & _).
  - rewrite elem_of_cons, list_elem_of_fmap. split.
    + intros [?|([x' r'] & ? & (l1 & l2 & -> & ->)%IH)]; simplify_eq.
      * by exists [], l.
      * by exists (y :: l1), l2.
    + intros ([|y' l1] & l2 & ? & ->); simplify_eq/=; [by left|right].
      exists (x, l1 ++ l2). split; [done|]. apply IH. by exists l1, l2.
Qed.

Lemma elem_of_permutations_len {A} n (pool p : list A) :
  length pool = n → p ∈ permutations_len n pool ↔ p ≡ₚ pool.
Proof.
  revert pool p. induction n as [|n IH]; intros pool p Hlen; simpl.
  - apply nil_length_inv in Hlen as ->. rewrite list_elem_of_singleton.
    split; [by intros ->|]. apply Permutation_nil_r.
  - rewrite list_elem_of_bind. split.
    + intros ([x rest] & Hp & (l1 & l2 & -> & ->)%elem_of_selections).
      apply list_elem_of_fmap in Hp as (p' & -> & Hp').
      apply IH in Hp'.
      * by rewrite Hp', Permutation_middle.
      * rewrite length_app in *. simpl in Hlen. lia.
    + intros Hp. destruct p as [|x p'].
      { apply Permutation_length in Hp. simpl in Hp. lia. }
      assert (x ∈ pool) as (l1 & l2 & ->)%list_elem_of_split
        by (rewrite <-Hp; left).
      apply Permutation_cons_app_inv in Hp.
      exists (x, l1 ++ l2). split.
      * apply list_elem_of_fmap. exists p'. split; [done|]. apply IH; [|done].
        rewrite length_app in *. simpl in Hlen. lia.
      * apply elem_of_selections. by exists l1, l2.
Qed.

Lemma elem_of_permutations {A} (pool p : list A) :
  p ∈ permutations pool ↔ p ≡ₚ pool.
Proof. by apply elem_of_permutations_len. Qed.

(** ** The order on tuples *)

Lemma tuple_ltb_irrefl a : tuple_ltb a a = false.
Proof. induction a as [|x a IH]; simpl; [done|]. by rewrite Z.eqb_refl. Qed.

Lemma tuple_ltb_trans a b c :
  tuple_ltb a b = true → tuple_ltb b c = true → tuple_ltb a c = true.
Proof.
  revert b c. induction a as [|x a IH]; intros [|y b] [|z c]; simpl; try done.
  destruct (Z.eqb_spec x y) as [->|Hxy], (Z.eqb_spec y z) as [->|Hyz].
  - apply IH.
  - intros _ H. by destruct (Z.eqb_spec y z).
  - intros H _. by destruct (Z.eqb_spec x z).
  - intros H1%Z.ltb_lt H2%Z.ltb_lt.
    destruct (Z.eqb_spec x z); [lia|]. apply Z.ltb_lt. lia.
Qed.

Lemma tuple_ltb_total a b :
  tuple_ltb a b = false → tuple_ltb b a = false → a = b.
Proof.
  revert b. induction a as [|x a IH]; intros [|y b]; simpl; try done.
  rewrite (Z.eqb_sym y x). destruct (Z.eqb_spec x y) as [->|Hxy].
  - intros H1 H2. f_equal. by apply IH.
  - intros H1%Z.ltb_ge H2%Z.ltb_ge. lia.
Qed.

(** ** Canonical forms *)

Lemma least_unique cand cand' m m' :
  (∀ t, t ∈ cand ↔ t ∈ cand') → least cand m → least cand' m' → m = m'.
Proof.
  intros Heq [Hm Hmin] [Hm' Hmin'].
  apply tuple_ltb_total; [apply Hmin', Heq, Hm|apply Hmin, Heq, Hm'].
Qed.

Lemma canonical_step_least wallet perms cand b :
  least cand b →
  ∃ m, foldl (canonical_step wallet) (Some b) perms = Some m
       ∧ least (cand ++ (transformed wallet <$> perms)) m.
Proof.
  revert cand b. induction perms as [|p perms IH]; intros cand b Hb; simpl.
  - exists b. by rewrite app_nil_r.
  - fold (relabel p wallet). fold (transformed wallet p).
    rewrite cons_middle, (assoc_L (++)).
    destruct Hb as [Hb Hmin].
    destruct (tuple_ltb (transformed wallet p) b) eqn:Hlt; apply IH; split.
    + apply elem_of_app. right. left.
    + intros t [Ht| ->%list_elem_of_singleton]%elem_of_app;
        [|apply tuple_ltb_irrefl].
      apply not_true_iff_false. intros Ht'.
      pose proof (Hmin t Ht) as Hf.
      by rewrite (tuple_ltb_trans _ _ _ Ht' Hlt) in Hf.
    + apply elem_of_app. by left.
    + intros t [Ht| ->%list_elem_of_singleton]%elem_of_app; auto.
Qed.

(** [canonicalizeWallet] never returns Python's [None]: it returns the least
    transformed tuple over the permutations of the key indices. *)
Lemma canonicalizeWallet_least wallet k :
  ∃ m, canonicalizeWallet wallet k = Some m
       ∧ least (transformed wallet <$> permutations (range 1 (k + 1))) m.
Proof.
  unfold canonicalizeWallet.
  destruct (permutations (range 1 (k + 1))) as [|p perms] eqn:Hperms.
  { assert (range 1 (k + 1) ∈ permutations (range 1 (k + 1))) as Hin
      by by apply elem_of_permutations.
    rewrite Hperms in Hin. by apply elem_of_nil in Hin. }
  simpl. fold (relabel p wallet). fold (transformed wallet p).
  apply (canonical_step_least wallet perms [transformed wallet p]).
  split; [left|]. intros t ->%list_elem_of_singleton. apply tuple_ltb_irrefl.
Qed.

Lemma canonicalizeWallet_ext wallet wallet' k :
  (∀ t, (∃ p, key_permutation k p ∧ t = transformed wallet p)
      ↔ (∃ p, key_permutation k p ∧ t = transformed wallet' p)) →
  canonicalizeWallet wallet k = canonicalizeWallet wallet' k.
Proof.
  intros Heq.
  destruct (canonicalizeWallet_least wallet k) as (m & -> & Hm).
  destruct (canonicalizeWallet_least wallet' k) as (m' & -> & Hm').
  f_equal. eapply least_unique; [|done..].
  intros t. rewrite !list_elem_of_fmap.
  setoid_rewrite elem_of_permutations.
  split; intros (p & -> & Hp).
  - destruct (proj1 (Heq (transformed wallet p))) as (p' & ? & ?); eauto.
  - destruct (proj2 (Heq (transformed wallet' p))) as (p' & ? & ?); eauto.
Qed.

Lemma sorted_Permutation l l' : l ≡ₚ l' → sorted l = sorted l'.
Proof.
  intros Hl. unfold sorted.
  apply (Sorted_unique Z.le); [apply Sorted_merge_sort; apply _..|].
  by rewrite !merge_sort_Permutation.
Qed.

Lemma canonicalizeWallet_relabel_any wallet k p :
  key_permutation k p →
  canonicalizeWallet (relabel p wallet) k = canonicalizeWallet wallet k.
Proof.
  intros Hp. apply canonicalizeWallet_ext. intros t. unfold transformed. split.
  - intros (s & Hs & ->). exists (perm_compose s p).
    split; [by apply compose_key_perm|]. by rewrite (relabel_compose k).
  - intros (s' & Hs' & ->).
    destruct (compose_surjective k p s' Hp Hs') as (s & Hs & <-).
    exists s. split; [done|]. by rewrite (relabel_compose k).
Qed.

Lemma canonicalizeWallet_Permutation wallet wallet' k :
  wallet ≡ₚ wallet' →
  canonicalizeWallet wallet k = canonicalizeWallet wallet' k.
Proof.
  intros Hw. apply canonicalizeWallet_ext. intros t.
  assert (∀ p, transformed wallet p = transformed wallet' p) as Heq.
  { intros p. apply sorted_Permutation. unfold relabel. by rewrite Hw. }
  by setoid_rewrite Heq.
Qed.

(** C9: canonicalization is idempotent: for [keyCount >= 1] the canonical
    form of a wallet, read again as a list of combinations, is its own
    canonical form. *)
Theorem canonicalizeWallet_idempotent (wallet : list Z) (keyCount : Z) :
  1 ≤ keyCount →
  ∃ canon, canonicalizeWallet wallet keyCount = Some canon
           ∧ canonicalizeWallet canon keyCount = Some canon.
Proof.
  intros _.
  destruct (canonicalizeWallet_least wallet keyCount) as (m & Hm & Hin & _).
  exists m. split; [done|].
  apply list_elem_of_fmap in Hin as (p & -> & Hp%elem_of_permutations).
  rewrite <-Hm. unfold transformed, sorted.
  rewrite (canonicalizeWallet_Permutation _ (relabel p wallet))
    by apply merge_sort_Permutation.
  by apply canonicalizeWallet_relabel_any.
Qed.

Lemma canonicalizeWallet_idempotent_witness :
  1 ≤ 3 ∧ ∃ canon, canonicalizeWallet [6; 5] 3 = Some canon
                   ∧ canonicalizeWallet canon 3 = Some canon.
Proof. split; [lia|]. apply (canonicalizeWallet_idempotent [6; 5] 3). lia. Defined.

(** C10: canonicalization does not depend on the names of the keys: for
    [keyCount >= 1], a wallet with all combinations below [2^keyCount] and a
    permutation [pi] of [1..keyCount], the wallet relabeled by [permuteBits]
    with [pi] has the canonical form of the wallet itself. *)
Theorem canonicalizeWallet_relabel (wallet : list Z) (keyCount : Z) (pi : list Z) :
  1 ≤ keyCount →
  Forall (λ c, c < 2 ^ keyCount) wallet →
  pi ≡ₚ range 1 (keyCount + 1) →
  canonicalizeWallet ((λ c, permuteBits c pi) <$> wallet) keyCount
  = canonicalizeWallet wallet keyCount.
Proof. intros _ _ Hpi. by apply canonicalizeWallet_relabel_any. Qed.

Lemma canonicalizeWallet_relabel_witness :
  canonicalizeWallet ((λ c, permuteBits c [2; 3; 1]) <$> [1; 6]) 3
  = canonicalizeWallet [1; 6] 3.
Proof.
  apply (canonicalizeWallet_relabel [1; 6] 3 [2; 3; 1]).
  - lia.
  - repeat constructor.
  - by apply elem_of_permutations; vm_compute; set_solver.
Defined.

(** ** Loops and subscripts *)

Lemma getitem_lookup {A} (l : list A) i x :
  l !! i = Some x → getitem l (Z.of_nat i) = OK x.
Proof.
  intros Hi. unfold getitem.
  destruct (Z.ltb_spec (Z.of_nat i) 0) as [|_]; [lia|].
  destruct (Z.ltb_spec (Z.of_nat i) 0) as [|_]; [lia|].
  by rewrite Nat2Z.id, Hi.
Qed.

Lemma for_each_seqZ {A B} (body : B → Z → result B)
    (body' : B → A → result B) (l : list A) (off : nat) st :
  (∀ i x st, l !! i = Some x → body st (Z.of_nat (off + i)) = body' st x) →
  for_each body st (seqZ (Z.of_nat off) (Z.of_nat (length l)))
  = for_each body' st l.
Proof.
  revert off st. induction l as [|x l IH]; intros off st Hbody.
  - by rewrite seqZ_nil.
  - rewrite seqZ_cons by (simpl; lia).
    replace (Z.succ (Z.of_nat off)) with (Z.of_nat (S off)) by lia.
    replace (Z.pred (Z.of_nat (length (x :: l))))
      with (Z.of_nat (length l)) by (simpl; lia).
    cbn [for_each].
    rewrite <-(Hbody 0%nat x st eq_refl), Nat.add_0_r.
    destruct (body st (Z.of_nat off)) as [st'|e]; simpl; [|done].
    apply IH. intros i y st'' Hi.
    rewrite <-(Hbody (S i) y st'' Hi). f_equal. lia.
Qed.

(** A loop over [range(len(l))] whose body reads position [i] of [l] is a
    loop over the elements of [l]. *)
Lemma for_each_range {A B} (body : B → Z → result B)
    (body' : B → A → result B) (l : list A) st :
  (∀ i x st, l !! i = Some x → body st (Z.of_nat i) = body' st x) →
  for_each body st (range 0 (Z.of_nat (length l))) = for_each body' st l.
Proof.
  intros Hbody. unfold range. rewrite Z.sub_0_r.
  by apply (for_each_seqZ body body' l 0).
Qed.

Lemma for_each_OK {A B} (f : B → A → B) (l : list A) st :
  for_each (λ st x, OK (f st x)) st l = OK (foldl f st l).
Proof. revert st. induction l as [|x l IH]; intros st; simpl; [done|apply IH]. Qed.

Lemma for_each_ext {A B} (body body' : B → A → result B) (l : list A) st :
  (∀ st x, body st x = body' st x) →
  for_each body st l = for_each body' st l.
Proof.
  intros Hext. revert st. induction l as [|x l IH]; intros st; simpl; [done|].
  rewrite Hext. destruct (body' st x); simpl; [apply IH|done].
Qed.

Lemma filter_ext_elem {A} (P Q : A → Prop)
    `{∀ x, Decision (P x)} `{∀ x, Decision (Q x)} (l : list A) :
  (∀ x, x ∈ l → P x ↔ Q x) → filter P l = filter Q l.
Proof.
  induction l as [|x l IH]; intros Hl; [done|].
  assert (filter P l = filter Q l) as IH'
    by (apply IH; intros y Hy; apply Hl; by right).
  rewrite !filter_cons, IH'.
  destruct (decide (P x)) as [HP|HP], (decide (Q x)) as [HQ|HQ]; try done.
  - by apply Hl in HP; [|left].
  - by apply Hl in HQ; [|left].
Qed.

Lemma comprehension_OK {A B} (f : A → result B) (g : A → B) (l : list A) :
  (∀ x, x ∈ l → f x = OK (g x)) → comprehension f l = OK (g <$> l).
Proof.
  induction l as [|x l IH]; intros Hf; simpl; [done|].
  rewrite Hf by left. simpl. rewrite IH; [done|].
  intros y Hy. apply Hf. by right.
Qed.

Lemma comprehension_Raise {A B} (f : A → result B) (l : list A) x e :
  x ∈ l → f x = Raise e → ∃ e', comprehension f l = Raise e'.
Proof.
  induction l as [|y l IH]; [by intros ?%elem_of_nil|].
  intros [->|Hx]%elem_of_cons Hf; simpl.
  - rewrite Hf. by exists e.
  - destruct (f y); simpl; [|by eauto].
    destruct (IH Hx Hf) as [e' ->]. by exists e'.
Qed.

(** ** The state space *)

Section state_space.
Context {F : Type} `{PyFloat F}.
Variable cs : consts.
Implicit Types (p : gmap key F) (P : KeyState → F).

Lemma all_states_length n state :
  state ∈ all_states cs n → length state = S n.
Proof.
  revert state. induction n as [|n IH]; intros state; simpl.
  - by intros (s & -> & _)%list_elem_of_fmap.
  - intros (s & (sfx & -> & Hsfx)%list_elem_of_fmap & _)%list_elem_of_bind.
    simpl. f_equal. by apply IH.
Qed.

Lemma state_probability_bind P (keyStates : list KeyState) sfxs :
  (∀ sfx, sfx ∈ sfxs → sfx ≠ []) →
  (keyState ← keyStates; f_mul (P keyState) <$> (state_probability P <$> sfxs))
  = state_probability P <$> (keyState ← keyStates; (keyState ::.) <$> sfxs).
Proof.
  intros Hne. induction keyStates as [|s l IH]; [done|].
  rewrite !bind_cons, fmap_app, IH. f_equal.
  rewrite <-!list_fmap_compose. apply list_fmap_ext.
  intros _ sfx Hsfx%list_elem_of_lookup_2. simpl.
  apply Hne in Hsfx. by destruct sfx.
Qed.

Lemma enumerateStates_inner p P sfx sp keyState states probabilities :
  p !! State keyState = Some (P keyState) → length sfx = length sp →
  for_each (enumerateStates_body p sfx sp keyState) (states, probabilities)
           (range 0 (Z.of_nat (length sfx)))
  = OK (states ++ ((keyState ::.) <$> sfx),
        probabilities ++ (f_mul (P keyState) <$> sp)).
Proof.
  intros HP Hlen.
  assert (length (zip sfx sp) = length sfx) as <-
    by (rewrite length_zip_with; lia).
  rewrite (for_each_range _
    (λ st x, OK (st.1 ++ [keyState :: x.1], st.2 ++ [f_mul (P keyState) x.2]))).
  - rewrite for_each_OK. f_equal.
    clear HP. revert sp states probabilities Hlen.
    induction sfx as [|s sfx IH]; intros [|q sp] states probabilities Hlen;
      simplify_eq/=; [by rewrite !app_nil_r|].
    rewrite IH by done. by rewrite <-!(assoc_L (++)).
  - intros i [s q] [states' probabilities'] Hi.
    apply lookup_zip_with_Some in Hi as (s' & q' & ? & Hs & Hq).
    simplify_eq/=. unfold enumerateStates_body.
    rewrite (getitem_lookup _ _ _ Hs), (getitem_lookup _ _ _ Hq). simpl.
    rewrite bool_decide_eq_false_2.
    + simpl. unfold dict_get. by rewrite HP.
    + intros Hdom. apply (not_elem_of_empty (C:=gset key) (State keyState)).
      rewrite <-Hdom. apply elem_of_dom. by rewrite HP.
Qed.

Lemma enumerateStates_outer p P sfx sp keyStates states probabilities :
  (∀ s, p !! State s = Some (P s)) → length sfx = length sp →
  for_each (λ st keyState,
      for_each (enumerateStates_body p sfx sp keyState) st
               (range 0 (Z.of_nat (length sfx))))
    (states, probabilities) keyStates
  = OK (states ++ (keyState ← keyStates; (keyState ::.) <$> sfx),
        probabilities ++ (keyState ← keyStates; f_mul (P keyState) <$> sp)).
Proof.
  intros HP Hlen. revert states probabilities.
  induction keyStates as [|s keyStates IH]; intros states probabilities; simpl.
  - by rewrite !app_nil_r.
  - rewrite (enumerateStates_inner p P) by done. simpl.
    rewrite IH. by rewrite <-!(assoc_L (++)).
Qed.

(** With enough fuel, on a dict that defines the four key states (and has no
    other key when [keyCount > 1]), [enumerateStates] returns all assignments
    with their probabilities. *)
Lemma enumerateStates_fuel_all fuel keyCount p P :
  1 ≤ keyCount → (Z.to_nat (keyCount - 1) ≤ fuel)%nat →
  (∀ s, p !! State s = Some (P s)) →
  (keyCount = 1 ∨ dom p = list_to_set (State <$> KeyStates cs)) →
  enumerateStates_fuel cs fuel keyCount p
  = OK (all_states cs (Z.to_nat (keyCount - 1)),
        state_probability P <$> all_states cs (Z.to_nat (keyCount - 1))).
Proof.
  intros Hk Hfuel HP Hdom.
  assert (∀ n fuel, (n ≤ fuel)%nat → (n = 0%nat ∨ dom p = list_to_set (State <$> KeyStates cs)) →
    enumerateStates_fuel cs fuel (Z.of_nat n + 1) p
    = OK (all_states cs n, state_probability P <$> all_states cs n)) as Hgen.
  { clear fuel keyCount Hk Hfuel Hdom.
    induction n as [|n IH]; intros fuel Hfuel Hdom.
    - change (Z.of_nat 0 + 1) with 1.
      assert (enumerateStates_fuel cs fuel 1 p
              = (probabilities ← comprehension
                   (λ state, dict_get p (State state)) (sorted_KeyStates cs);
                 OK ((λ state, [state]) <$> sorted_KeyStates cs, probabilities)))
        as -> by by destruct fuel.
      rewrite (comprehension_OK _ P).
      + simpl. by rewrite <-list_fmap_compose.
      + intros s _. unfold dict_get. by rewrite HP.
    - destruct fuel as [|fuel]; [lia|].
      destruct Hdom as [|Hdom]; [done|].
      remember (Z.of_nat (S n) + 1) as k eqn:Hk. cbn [enumerateStates_fuel].
      destruct (Z.leb_spec k 0) as [|_]; [lia|].
      destruct (Z.eqb_spec k 1) as [|_]; [lia|].
      rewrite bool_decide_eq_true_2 by done.
      replace (k - 1) with (Z.of_nat n + 1) by lia.
      rewrite IH by (auto; lia). simpl.
      rewrite (enumerateStates_outer p P) by (by rewrite ?length_fmap).
      simpl. f_equal. f_equal. apply state_probability_bind.
      intros sfx Hsfx%all_states_length. by destruct sfx. }
  replace keyCount with (Z.of_nat (Z.to_nat (keyCount - 1)) + 1) at 1 by lia.
  apply Hgen; [done|]. destruct Hdom as [->|]; [by left|by right].
Qed.

Lemma enumerateStates_all keyCount p P :
  1 ≤ keyCount → (∀ s, p !! State s = Some (P s)) →
  (keyCount = 1 ∨ dom p = list_to_set (State <$> KeyStates cs)) →
  enumerateStates cs keyCount p
  = OK (all_states cs (Z.to_nat (keyCount - 1)),
        state_probability P <$> all_states cs (Z.to_nat (keyCount - 1))).
Proof. intros. apply enumerateStates_fuel_all; [done|lia|done..]. Qed.

Lemma ownerAdvKeysFromStates_fmap states :
  ownerAdvKeysFromStates states
  = (ownerState_of <$> states, advState_of <$> states).
Proof.
  unfold ownerAdvKeysFromStates.
  cut (∀ os ads,
    foldl (λ '(ownerStates, advStates) state,
             let '(ownerState, advState, _) :=
               foldl ownerAdv_step (0, 0, 0) state in
             (ownerStates ++ [ownerState], advStates ++ [advState]))
          (os, ads) states
    = (os ++ (ownerState_of <$> states), ads ++ (advState_of <$> states))).
  { intros Hgen. by rewrite Hgen. }
  induction states as [|state states IH]; intros os ads; simpl.
  - by rewrite !app_nil_r.
  - unfold ownerState_of, advState_of at 1.
    destruct (foldl ownerAdv_step (0, 0, 0) state) as [[o a] i]. simpl.
    rewrite IH. by rewrite <-!(assoc_L (++)).
Qed.

(** On the lists that come from a list of assignments, the loop of
    [computeSuccessProbability] adds up the probabilities of the states of
    success, in the order of the list. *)
Lemma computeSuccessProbability_states wallet states (pr : list KeyState → F) :
  computeSuccessProbability wallet (ownerState_of <$> states)
    (advState_of <$> states) (pr <$> states)
  = OK (foldl (λ total state,
                 if success wallet state then f_add total (pr state) else total)
              f_zero states).
Proof.
  unfold computeSuccessProbability. rewrite length_fmap.
  rewrite (for_each_range _ (λ total state,
      OK (if success wallet state then f_add total (pr state) else total))).
  - apply for_each_OK.
  - intros i state total Hi.
    assert (∀ {B} (g : list KeyState → B),
              getitem (g <$> states) (Z.of_nat i) = OK (g state)) as Hget.
    { intros B g. apply getitem_lookup. by rewrite list_lookup_fmap, Hi. }
    rewrite !Hget. simpl. unfold success.
    by destruct (_ && _).
Qed.

End state_space.

(** ** Failures of [enumerateStates] *)

Lemma consts_ok_set cs :
  consts_ok cs → list_to_set (State <$> KeyStates cs) = four_states.
Proof.
  intros [Hks _]. rewrite (list_to_set_perm_L _ (State <$> [SAFE; LOST; LEAKED; STOLEN])).
  - unfold four_states. simpl. set_solver.
  - by rewrite Hks.
Qed.

Lemma consts_ok_elem cs s :
  consts_ok cs → s ∈ KeyStates cs ∧ s ∈ sorted_KeyStates cs.
Proof.
  intros [Hks Hsorted]. rewrite Hsorted, Hks. split; destruct s; set_solver.
Qed.

Lemma dict_defined {F} (p : gmap key F) :
  (∀ s, is_Some (p !! State s)) → ∃ P, ∀ s, p !! State s = Some (P s).
Proof.
  intros Hp.
  destruct (Hp SAFE) as [a Ha], (Hp LOST) as [b Hb],
    (Hp LEAKED) as [c Hc], (Hp STOLEN) as [d Hd].
  exists (λ s, match s with SAFE => a | LOST => b | LEAKED => c | STOLEN => d end).
  by intros [].
Qed.

Lemma four_states_defined {F} (p : gmap key F) s :
  dom p = four_states → is_Some (p !! State s).
Proof.
  intros Hdom. apply elem_of_dom. rewrite Hdom. unfold four_states.
  destruct s; set_solver.
Qed.

Lemma dom_state_dict {F} (a b c d : F) : dom (state_dict a b c d) = four_states.
Proof.
  unfold state_dict, four_states. rewrite !dom_insert_L, dom_empty_L. set_solver.
Qed.

Lemma enumerateStates_OK {F} `{PyFloat F}
    (cs : consts) (keyCount : Z) (p : gmap key F) :
  consts_ok cs → 1 ≤ keyCount → dom p = four_states →
  ∃ r, enumerateStates cs keyCount p = OK r.
Proof.
  intros Hcs Hk Hdom.
  destruct (dict_defined p) as [P HP]; [intros s; by apply four_states_defined|].
  eexists. apply (enumerateStates_all cs keyCount p P); [done..|].
  right. by rewrite consts_ok_set.
Qed.

(** A dict from key states to probabilities that defines the four key states
    has exactly these four keys. *)
Lemma state_keyed_dom {F} (p : gmap key F) :
  (∀ k, is_Some (p !! k) → ∃ s, k = State s) →
  (∀ s, is_Some (p !! State s)) → dom p = four_states.
Proof.
  intros Hkeys Hall. apply set_eq. intros k. rewrite elem_of_dom. split.
  - intros [s ->]%Hkeys. unfold four_states. destruct s; set_solver.
  - unfold four_states. rewrite !elem_of_union, !elem_of_singleton.
    intros [[[->| ->]| ->]| ->]; apply Hall.
Qed.

(** C6: [enumerateStates] raises at once, without a result, when
    [keyCount <= 0]; it raises when the dict lacks one of the four key
    states; and for [keyCount >= 1] and a dict from key states to
    probabilities that defines all four of them it returns. *)
Theorem enumerateStates_failure {F} `{PyFloat F}
    (cs : consts) (keyCount : Z) (p : gmap key F) :
  consts_ok cs →
  (keyCount ≤ 0 →
     enumerateStates cs keyCount p = Raise (Exception "Invalid number of keys"))
  ∧ ((∃ s, p !! State s = None) → ∃ e, enumerateStates cs keyCount p = Raise e)
  ∧ (1 ≤ keyCount →
     (∀ k, is_Some (p !! k) → ∃ s, k = State s) →
     (∀ s, is_Some (p !! State s)) →
     ∃ r, enumerateStates cs keyCount p = OK r).
Proof.
  intros Hcs. split; [|split].
  - intros Hk. unfold enumerateStates.
    destruct (Z.to_nat keyCount); simpl;
      by destruct (Z.leb_spec keyCount 0); [|lia].
  - intros [s Hs]. unfold enumerateStates.
    destruct (Z.to_nat keyCount) as [|fuel] eqn:Hfuel; simpl.
    + destruct (Z.leb_spec keyCount 0) as [|Hk]; [by eauto|lia].
    + destruct (Z.leb_spec keyCount 0) as [|Hk]; [by eauto|].
      destruct (Z.eqb_spec keyCount 1) as [->|Hk1].
      * destruct (comprehension_Raise
          (λ state, dict_get p (State state)) (sorted_KeyStates cs) s
          (KeyError (State s))) as [e ->]; [|..|by eauto].
        -- by apply consts_ok_elem.
        -- unfold dict_get. by rewrite Hs.
      * rewrite bool_decide_eq_false_2; [by eauto|].
        rewrite consts_ok_set by done. intros Hdom.
        destruct (four_states_defined p s Hdom) as [v Hv]. congruence.
  - intros Hk Hkeys Hall. apply enumerateStates_OK; [done..|].
    by apply state_keyed_dom.
Qed.

Lemma consts_ok_spec : consts_ok spec_consts.
Proof. by split. Qed.

Lemma enumerateStates_failure_witness :
  consts_ok spec_consts
  ∧ ∃ r, enumerateStates spec_consts 2
           (state_dict 0.5 0.25 0.125 0.125)%float = OK r.
Proof.
  split; [exact consts_ok_spec|].
  destruct (enumerateStates_failure spec_consts 2
              (state_dict 0.5 0.25 0.125 0.125)%float consts_ok_spec)
    as (_ & _ & Hok).
  apply Hok; [lia| |].
  - intros k. unfold state_dict.
    rewrite !lookup_insert_is_Some, lookup_empty, is_Some_alt.
    intros [<-|[_ [<-|[_ [<-|[_ [<-|[_ []]]]]]]]]; by eexists.
  - intros []; by eexists.
Defined.

(** ** The search on an empty list *)

(** C7: for a valid [keyCount >= 1] and a dict of probabilities on exactly
    the four key states, [findOptimalWallet] on the empty list of wallets
    raises nothing and returns [([], -1.0)]. *)
Theorem findOptimalWallet_empty {F} `{PyFloat F}
    (cs : consts) (keyCount : Z) (p : gmap key F) :
  consts_ok cs → 1 ≤ keyCount → dom p = four_states →
  findOptimalWallet cs [] keyCount p = OK ([], f_neg_one).
Proof.
  intros Hcs Hk Hdom. unfold findOptimalWallet.
  destruct (enumerateStates_OK cs keyCount p Hcs Hk Hdom)
    as [[states probabilities] ->]. simpl.
  by destruct (ownerAdvKeysFromStates states).
Qed.

Lemma findOptimalWallet_empty_witness :
  findOptimalWallet spec_consts [] 2 (state_dict 0.5 0.25 0.125 0.125)%float
  = OK ([], (-1)%float).
Proof.
  refine (findOptimalWallet_empty (F:=float) spec_consts 2 _ consts_ok_spec _ _).
  - lia.
  - apply dom_state_dict.
Defined.

(** ** Probability mass *)




(** ** The search for the best wallets *)

Lemma for_each_app {A B} (body : B → A → result B) (l1 l2 : list A) st :
  for_each body st (l1 ++ l2)
  = (st' ← for_each body st l1; for_each body st' l2).
Proof.
  revert st. induction l1 as [|x l1 IH]; intros st; simpl; [done|].
  destruct (body st x); simpl; [apply IH|done].
Qed.

Section search.
Context {F : Type} `{PyFloat F}.
(** [prob w] stands for the call of [computeSuccessProbability] on [w] and
    the shared state space. *)
Variable prob : list Z → result F.




End search.



(** In binary64 a wallet whose success probability is the best probability
    itself passes the tie test against it, when that probability is finite:
    [p - p] is then [0.0]. *)
Lemma tie_test_same (b : float) :
  is_finite b = true → (abs (b - b) <? f_tol)%float = true.
Proof.
  intros Hfin. change f_tol with 0x1.19799812dea11p-40%float.
  rewrite FloatAxioms.ltb_spec, FloatAxioms.abs_spec, FloatAxioms.sub_spec.
  unfold is_finite, is_nan, is_infinity in Hfin.
  rewrite !FloatAxioms.eqb_spec, FloatAxioms.abs_spec in Hfin.
  destruct (Prim2SF b) as [s|s| |s m e].
  - by destruct s.
  - by destruct s.
  - done.
  - unfold SF64sub, SFsub. by rewrite Z.sub_diag.
Qed.


(** ** Relabeling the keys of the state space *)

Lemma ownerAdv_fold state o a i :
  0 ≤ i →
  foldl ownerAdv_step (o, a, i) state
  = (o + 2 ^ i * bits_mask (owner_has <$> state),
     a + 2 ^ i * bits_mask (adv_has <$> state),
     i + Z.of_nat (length state)).
Proof.
  revert o a i. induction state as [|s state IH]; intros o a i Hi.
  - simpl. do 2 f_equal; lia.
  - cbn [foldl ownerAdv_step]. rewrite IH by lia.
    rewrite !fmap_cons. cbn [bits_mask length].
    rewrite Z.pow_add_r by lia.
    assert ((bools s).1 = Z.b2z (owner_has s) ∧ (bools s).2 = Z.b2z (adv_has s))
      as [-> ->] by by destruct s.
    f_equal; [f_equal|]; lia.
Qed.

Lemma ownerState_of_mask state :
  ownerState_of state = bits_mask (owner_has <$> state).
Proof. unfold ownerState_of. rewrite ownerAdv_fold by done. simpl. lia. Qed.

Lemma advState_of_mask state :
  advState_of state = bits_mask (adv_has <$> state).
Proof. unfold advState_of. rewrite ownerAdv_fold by done. simpl. lia. Qed.

Lemma bits_mask_testbit bs i :
  Z.testbit (bits_mask bs) (Z.of_nat i) = default false (bs !! i).
Proof.
  revert i. induction bs as [|b bs IH]; intros i.
  - simpl. by rewrite Z.bits_0.
  - cbn [bits_mask]. rewrite Z.add_comm. destruct i as [|i].
    + by rewrite Z.testbit_0_r.
    + rewrite Nat2Z.inj_succ, Z.testbit_succ_r by lia. apply IH.
Qed.

Lemma bits_mask_bounds bs : 0 ≤ bits_mask bs < 2 ^ Z.of_nat (length bs).
Proof.
  induction bs as [|b bs IH]; [simpl; lia|].
  cbn [bits_mask length]. rewrite Nat2Z.inj_succ, Z.pow_succ_r by lia.
  destruct b; simpl Z.b2z; lia.
Qed.

Section relabel_states.
Variable k : Z.
Variable pi : list Z.
Hypothesis Hk : 0 ≤ k.
Hypothesis Hpi : key_permutation k pi.


Lemma key_permutation_lookup_inv i t : pi !! i = Some t → 1 ≤ t ≤ k.
Proof.
  intros Hi. destruct (key_perm_bounds k pi Hpi) as (Hb & _ & _).
  rewrite Forall_forall in Hb. by eapply Hb, list_elem_of_lookup_2.
Qed.

Lemma permuteBits_land x y :
  permuteBits (Z.land x y) pi = Z.land (permuteBits x pi) (permuteBits y pi).
Proof.
  apply Z.bits_inj'. intros m Hm. apply eq_true_iff_eq.
  pose proof (key_perm_pos k pi Hpi) as Hpos.
  destruct (key_perm_bounds k pi Hpi) as (_ & _ & Hnd).
  rewrite Z.land_spec, andb_true_iff, !permuteBits_testbit by done.
  setoid_rewrite Z.land_spec. setoid_rewrite andb_true_iff. split.
  - intros (i & Hi & Hx & Hy). split; by exists i.
  - intros [(i & Hi & Hx) (i' & Hi' & Hy)].
    assert (i' = i) as -> by (by eapply NoDup_lookup). by exists i.
Qed.

Lemma testbit_above x j : 0 ≤ x < 2 ^ k → k ≤ j → Z.testbit x j = false.
Proof.
  intros Hx Hj. destruct (decide (x = 0)) as [->|Hx0]; [apply Z.bits_0|].
  apply Z.bits_above_log2; [lia|].
  assert (Z.log2 x < k); [|lia]. apply Z.log2_lt_pow2; lia.
Qed.

(** Bit [i] of [x] is bit [pi[i] - 1] of [permuteBits x pi]. *)
Lemma permuteBits_testbit_at x i t :
  pi !! i = Some t →
  Z.testbit (permuteBits x pi) (t - 1) = Z.testbit x (Z.of_nat i).
Proof.
  intros Hi. pose proof (key_perm_pos k pi Hpi) as Hpos.
  destruct (key_perm_bounds k pi Hpi) as (_ & _ & Hnd).
  pose proof (key_permutation_lookup_inv i t Hi) as Ht.
  apply eq_true_iff_eq. rewrite permuteBits_testbit by (done || lia).
  replace (t - 1 + 1) with t by lia. split.
  - intros (i' & Hi' & Hx).
    assert (i' = i) as -> by (by eapply NoDup_lookup). done.
  - intros Hx. eauto.
Qed.

Lemma permuteBits_inj x y :
  0 ≤ x < 2 ^ k → 0 ≤ y < 2 ^ k →
  permuteBits x pi = permuteBits y pi → x = y.
Proof.
  intros Hx Hy Heq. apply Z.bits_inj'. intros j Hj.
  destruct (key_perm_bounds k pi Hpi) as (_ & Hlen & _).
  destruct (decide (j < k)) as [Hjk|Hjk].
  - destruct (lookup_lt_is_Some_2 pi (Z.to_nat j)) as [t Ht]; [lia|].
    rewrite <-(Z2Nat.id j) by done.
    by rewrite <-!(permuteBits_testbit_at _ _ _ Ht), Heq.
  - rewrite !testbit_above by lia. done.
Qed.







End relabel_states.

(** ** Relabeling and the success probability *)

Lemma elem_of_all_states cs n state :
  consts_ok cs → state ∈ all_states cs n ↔ length state = S n.
Proof.
  intros Hcs. split; [apply all_states_length|].
  revert state. induction n as [|n IH]; intros state Hlen.
  - destruct state as [|s [|??]]; simplify_eq/=.
    apply list_elem_of_fmap. exists s. split; [done|]. by apply consts_ok_elem.
  - destruct state as [|s state]; simplify_eq/=.
    apply list_elem_of_bind. exists s. split; [|by apply consts_ok_elem].
    apply list_elem_of_fmap. exists state. split; [done|]. by apply IH.
Qed.

Lemma consts_ok_NoDup cs :
  consts_ok cs → NoDup (KeyStates cs) ∧ NoDup (sorted_KeyStates cs).
Proof.
  intros [Hks Hsorted]. rewrite Hsorted, Hks.
  split; by apply (bool_decide_unpack _).
Qed.

Lemma all_states_NoDup cs n : consts_ok cs → NoDup (all_states cs n).
Proof.
  intros Hcs. destruct (consts_ok_NoDup cs Hcs) as [Hks Hsorted].
  induction n as [|n IH]; cbn [all_states].
  - apply NoDup_fmap_2; [|done]. by intros s s' [= ->].
  - apply NoDup_bind; [| |done].
    + intros s s' state _ _ (sfx & -> & _)%list_elem_of_fmap
        (sfx' & [= -> _] & _)%list_elem_of_fmap. done.
    + intros s _. apply NoDup_fmap_2; [|done]. by intros sfx sfx' [= ->].
Qed.








(** ** The order of the table of key states

    The three failures in binary64 above do not depend on the order in which
    [consts.py] lists the key states. *)

Lemma consts_ok_all_consts cs : consts_ok cs → cs ∈ all_consts.
Proof.
  destruct cs as [ks sk]. intros [Hks Hsk]. simpl in *.
  apply list_elem_of_bind. exists ks.
  split; [|by apply elem_of_permutations].
  apply list_elem_of_bind. exists sk.
  split; [by left|]. apply elem_of_permutations. by rewrite Hsk.
Qed.

Lemma all_consts_forallb (check : consts → bool) cs :
  forallb check all_consts = true → consts_ok cs → check cs = true.
Proof.
  intros Hall Hcs%consts_ok_all_consts.
  rewrite forallb_forall in Hall. by apply Hall, list_elem_of_In.
Qed.

Lemma mass_drifts_any_order cs : consts_ok cs → mass_drifts cs = true.
Proof. apply all_consts_forallb. by vm_compute. Qed.

Lemma near_tie_dropped_any_order cs : consts_ok cs → near_tie_dropped cs = true.
Proof. apply all_consts_forallb. by vm_compute. Qed.

Lemma relabel_rounds_any_order cs : consts_ok cs → relabel_rounds cs = true.
Proof. apply all_consts_forallb. by vm_compute. Qed.

(** * Further properties of the code *)

(** ** [permuteBits] *)

Lemma permuteBits_lt x k pi :
  0 ≤ k → key_permutation k pi → permuteBits x pi < 2 ^ k.
Proof.
  intros Hk Hpi.
  destruct (decide (permuteBits x pi = 0)) as [->|Hne];
    [by apply Z.pow_pos_nonneg|].
  pose proof (permuteBits_nonneg x pi) as Hnn.
  pose proof (key_perm_pos k pi Hpi) as Hpos.
  assert (Z.testbit (permuteBits x pi) (Z.log2 (permuteBits x pi)) = true) as Hb
    by (apply Z.bit_log2; lia).
  apply permuteBits_testbit in Hb as (i & Hi & _);
    [|done|apply Z.log2_nonneg].
  apply (key_permutation_lookup_inv k pi Hpi) in Hi.
  apply Z.log2_lt_pow2; lia.
Qed.

(** X1: for a permutation [pi] of [1..keyCount], [permuteBits] returns a mask
    of [keyCount] bits, whatever the number: bits of the number at positions
    [keyCount] and above, and the sign, are dropped. *)
Theorem permuteBits_range (number keyCount : Z) (pi : list Z) :
  0 ≤ keyCount → pi ≡ₚ range 1 (keyCount + 1) →
  0 ≤ permuteBits number pi < 2 ^ keyCount.
Proof.
  intros Hk Hpi. split; [apply permuteBits_nonneg|by apply permuteBits_lt].
Qed.

Lemma permuteBits_range_witness : 0 ≤ permuteBits (-3) [2; 3; 1] < 2 ^ 3.
Proof.
  apply (permuteBits_range (-3) 3 [2; 3; 1]); [lia|].
  apply elem_of_permutations. vm_compute. do 3 right. left.
Defined.

Lemma permuteBits_id_mod number k :
  0 ≤ k → permuteBits number (range 1 (k + 1)) = number `mod` 2 ^ k.
Proof.
  intros Hk. rewrite <-Z.land_ones by done. apply Z.bits_inj'. intros m Hm.
  apply eq_true_iff_eq.
  rewrite permuteBits_testbit;
    [|by apply (key_perm_pos k); unfold key_permutation|done].
  rewrite Z.land_spec, andb_true_iff. unfold range.
  setoid_rewrite lookup_seqZ. split.
  - intros (i & [Hi Hlt] & Hb). replace m with (Z.of_nat i) by lia.
    split; [done|]. apply Z.ones_spec_low. lia.
  - intros [Hb Hones]. destruct (decide (m < k)) as [Hlt|Hge].
    + exists (Z.to_nat m). rewrite Z2Nat.id by done. split; [lia|done].
    + rewrite Z.ones_spec_high in Hones by lia. done.
Qed.

(** X2: with the identity permutation [1..keyCount], [permuteBits] keeps the
    low [keyCount] bits of the number: it returns [number % 2 ** keyCount], so
    a mask of [keyCount] bits is returned unchanged. *)
Theorem permuteBits_identity (number keyCount : Z) :
  0 ≤ keyCount →
  permuteBits number (range 1 (keyCount + 1)) = number `mod` 2 ^ keyCount
  ∧ (0 ≤ number < 2 ^ keyCount →
     permuteBits number (range 1 (keyCount + 1)) = number).
Proof.
  intros Hk. split; [by apply permuteBits_id_mod|].
  intros Hn. rewrite permuteBits_id_mod by done. by apply Z.mod_small.
Qed.

Lemma permuteBits_identity_witness :
  permuteBits 13 (range 1 (3 + 1)) = 13 `mod` 2 ^ 3.
Proof. apply (permuteBits_identity 13 3). lia. Defined.

(** X3: two relabelings in a row are one relabeling: for permutations [p]
    and [s] of [1..keyCount], applying [permuteBits] with [p] and then with
    [s] is [permuteBits] with the permutation [s[t - 1] for t in p]. *)
Theorem permuteBits_twice (number keyCount : Z) (p s : list Z) :
  p ≡ₚ range 1 (keyCount + 1) → s ≡ₚ range 1 (keyCount + 1) →
  permuteBits (permuteBits number p) s
  = permuteBits number ((λ t, s !!! Z.to_nat (t - 1)) <$> p)
  ∧ (λ t, s !!! Z.to_nat (t - 1)) <$> p ≡ₚ range 1 (keyCount + 1).
Proof.
  intros Hp Hs. split.
  - by apply (permuteBits_compose keyCount).
  - by apply (compose_key_perm keyCount).
Qed.

Lemma permuteBits_twice_witness :
  permuteBits (permuteBits 5 [2; 3; 1]) [3; 1; 2]
  = permuteBits 5 ((λ t, [3; 1; 2] !!! Z.to_nat (t - 1)) <$> [2; 3; 1]).
Proof.
  apply (permuteBits_twice 5 3 [2; 3; 1] [3; 1; 2]);
    apply elem_of_permutations; vm_compute.
  - do 3 right. left.
  - do 4 right. left.
Defined.

(** X4: every relabeling can be undone: for a permutation [p] of
    [1..keyCount] there is a permutation [q] of [1..keyCount] such that
    [permuteBits] with [q] returns every mask of [keyCount] bits from its
    image under [permuteBits] with [p]. *)
Theorem permuteBits_undo (keyCount : Z) (p : list Z) :
  0 ≤ keyCount → p ≡ₚ range 1 (keyCount + 1) →
  ∃ q, q ≡ₚ range 1 (keyCount + 1)
       ∧ ∀ number, 0 ≤ number < 2 ^ keyCount →
                   permuteBits (permuteBits number p) q = number.
Proof.
  intros Hk Hp. exists (inverse p).
  split; [by apply (inverse_key_perm keyCount)|]. intros number Hn.
  rewrite (permuteBits_compose keyCount) by (done || by apply inverse_key_perm).
  rewrite (compose_inverse keyCount), permuteBits_id_mod by done.
  by apply Z.mod_small.
Qed.

Lemma permuteBits_undo_witness :
  ∃ q, q ≡ₚ range 1 (3 + 1)
       ∧ ∀ number, 0 ≤ number < 2 ^ 3 →
                   permuteBits (permuteBits number [2; 3; 1]) q = number.
Proof.
  apply (permuteBits_undo 3 [2; 3; 1]); [lia|].
  apply elem_of_permutations. vm_compute. do 3 right. left.
Defined.

(** X5: [permuteBits] with a permutation of [1..keyCount] commutes with [&]
    and [|], and between masks of [keyCount] bits it keeps and reflects the
    subset relation [x & y == x]. *)
Theorem permuteBits_and_or (x y keyCount : Z) (pi : list Z) :
  0 ≤ keyCount → pi ≡ₚ range 1 (keyCount + 1) →
  permuteBits (Z.land x y) pi = Z.land (permuteBits x pi) (permuteBits y pi)
  ∧ permuteBits (Z.lor x y) pi = Z.lor (permuteBits x pi) (permuteBits y pi)
  ∧ (0 ≤ x < 2 ^ keyCount → 0 ≤ y < 2 ^ keyCount →
     Z.land (permuteBits x pi) (permuteBits y pi) = permuteBits x pi
     ↔ Z.land x y = x).
Proof.
  intros Hk Hpi. split; [by apply (permuteBits_land keyCount)|]. split.
  - apply Z.bits_inj'. intros m Hm. apply eq_true_iff_eq.
    pose proof (key_perm_pos keyCount pi Hpi) as Hpos.
    rewrite Z.lor_spec, orb_true_iff, !permuteBits_testbit by done.
    setoid_rewrite Z.lor_spec. setoid_rewrite orb_true_iff. split.
    + intros (i & Hi & [Hx|Hy]); [left|right]; by exists i.
    + intros [(i & Hi & Hx)|(i & Hi & Hy)]; exists i; auto.
  - intros Hx Hy. rewrite <-(permuteBits_land keyCount) by done. split.
    + intros Heq. apply (permuteBits_inj keyCount pi) in Heq; [done..| |done].
      split; [apply Z.land_nonneg; lia|].
      pose proof (land_le_r y x). rewrite (Z.land_comm y x) in *. lia.
    + by intros ->.
Qed.

Lemma permuteBits_and_or_witness :
  permuteBits (Z.land 3 6) [2; 3; 1]
  = Z.land (permuteBits 3 [2; 3; 1]) (permuteBits 6 [2; 3; 1]).
Proof.
  apply (permuteBits_and_or 3 6 3 [2; 3; 1]); [lia|].
  apply elem_of_permutations. vm_compute. do 3 right. left.
Defined.

(** ** [canonicalizeWallet] *)

(** X6: [canonicalizeWallet] never returns [None].  What it returns is the
    sorted relabeling of the wallet by some permutation of [1..keyCount], no
    permutation gives a smaller sorted relabeling, and it has the length of
    the wallet. *)
Theorem canonicalizeWallet_smallest (wallet : list Z) (keyCount : Z) :
  ∃ canon,
    canonicalizeWallet wallet keyCount = Some canon
    ∧ (∃ pi, pi ≡ₚ range 1 (keyCount + 1)
             ∧ canon = sorted ((λ c, permuteBits c pi) <$> wallet))
    ∧ (∀ pi, pi ≡ₚ range 1 (keyCount + 1) →
             tuple_ltb (sorted ((λ c, permuteBits c pi) <$> wallet)) canon
             = false)
    ∧ length canon = length wallet
    ∧ Sorted Z.le canon.
Proof.
  destruct (canonicalizeWallet_least wallet keyCount) as (m & Hm & Hin & Hmin).
  exists m. split; [done|].
  apply list_elem_of_fmap in Hin as (pi & -> & Hpi%elem_of_permutations).
  split; [by exists pi|]. split; [|split].
  - intros pi' Hpi'. apply Hmin, list_elem_of_fmap. exists pi'.
    split; [done|]. by apply elem_of_permutations.
  - unfold transformed, sorted, relabel.
    by rewrite merge_sort_Permutation, length_fmap.
  - apply Sorted_merge_sort. apply _.
Qed.

Lemma canonicalizeWallet_eq_relabel (w w' : list Z) (keyCount : Z) :
  0 ≤ keyCount → Forall (λ c, 0 ≤ c < 2 ^ keyCount) w' →
  canonicalizeWallet w keyCount = canonicalizeWallet w' keyCount →
  ∃ pi, key_permutation keyCount pi ∧ relabel pi w ≡ₚ w'.
Proof.
  intros Hk Hw' Heq.
  destruct (canonicalizeWallet_least w keyCount) as (m & Hm & Hin & _).
  destruct (canonicalizeWallet_least w' keyCount) as (m' & Hm' & Hin' & _).
  assert (m' = m) as -> by congruence.
  apply list_elem_of_fmap in Hin as (s & Hs & Hsp%elem_of_permutations).
  apply list_elem_of_fmap in Hin' as (s' & Hs' & Hsp'%elem_of_permutations).
  assert (relabel s w ≡ₚ relabel s' w') as Hperm.
  { unfold transformed, sorted in Hs, Hs'.
    rewrite <-(merge_sort_Permutation Z.le (relabel s w)), <-Hs, Hs'.
    apply merge_sort_Permutation. }
  exists (perm_compose (inverse s') s).
  pose proof (inverse_key_perm keyCount s' Hsp') as Hinv.
  split; [by apply (compose_key_perm keyCount)|].
  rewrite <-(relabel_compose keyCount) by done.
  etrans; [apply (fmap_Permutation _ _ _ Hperm)|].
  fold (relabel (inverse s') (relabel s' w')).
  rewrite (relabel_compose keyCount) by done.
  rewrite (compose_inverse keyCount) by done.
  match goal with |- ?x ≡ₚ _ => assert (x = w') as ->; [|done] end.
  unfold relabel. rewrite <-(list_fmap_id w') at 2.
  apply Forall_fmap_ext. eapply Forall_impl; [done|]. simpl.
  intros c Hc. rewrite permuteBits_id_mod by done. by apply Z.mod_small.
Qed.

Lemma canonicalizeWallet_relabel_eq (w w' : list Z) (keyCount : Z) (pi : list Z) :
  key_permutation keyCount pi → relabel pi w ≡ₚ w' →
  canonicalizeWallet w keyCount = canonicalizeWallet w' keyCount.
Proof.
  intros Hpi Hperm.
  rewrite <-(canonicalizeWallet_Permutation _ _ keyCount Hperm).
  symmetry. by apply canonicalizeWallet_relabel_any.
Qed.

(** X7: two wallets have the same canonical form exactly when one is a
    relabeling of the other, up to the order of the combinations: for
    [keyCount >= 0] and a wallet [w'] of masks of [keyCount] bits,
    [canonicalizeWallet w] and [canonicalizeWallet w'] are equal if and only
    if [permuteBits] with some permutation of [1..keyCount] turns the
    combinations of [w] into those of [w']. *)
Theorem canonicalizeWallet_eq_iff (w w' : list Z) (keyCount : Z) :
  0 ≤ keyCount → Forall (λ c, 0 ≤ c < 2 ^ keyCount) w' →
  canonicalizeWallet w keyCount = canonicalizeWallet w' keyCount
  ↔ ∃ pi, pi ≡ₚ range 1 (keyCount + 1)
          ∧ (λ c, permuteBits c pi) <$> w ≡ₚ w'.
Proof.
  intros Hk Hw'. split.
  - by apply canonicalizeWallet_eq_relabel.
  - intros (pi & Hpi & Hperm). by apply (canonicalizeWallet_relabel_eq _ _ _ pi).
Qed.

Lemma canonicalizeWallet_eq_iff_witness :
  canonicalizeWallet [1; 6] 3 = canonicalizeWallet [5; 2] 3
  ↔ ∃ pi, pi ≡ₚ range 1 (3 + 1) ∧ (λ c, permuteBits c pi) <$> [1; 6] ≡ₚ [5; 2].
Proof.
  apply (canonicalizeWallet_eq_iff [1; 6] [5; 2] 3); [lia|].
  repeat constructor; lia.
Defined.

(** ** [deduplicateWalletsByArchitecture] *)

Lemma deduplicate_foldl keyCount wallets seen unique :
  (foldl (deduplicate_step keyCount) (seen, unique) wallets).2
  = unique ++ keep_new keyCount seen wallets.
Proof.
  revert seen unique.
  induction wallets as [|w ws IH]; intros seen unique; simpl.
  - by rewrite app_nil_r.
  - destruct (decide (canonicalizeWallet w keyCount ∈ seen)); [apply IH|].
    by rewrite IH, <-app_assoc.
Qed.

Lemma deduplicate_keep_new wallets keyCount :
  deduplicateWalletsByArchitecture wallets keyCount = keep_new keyCount ∅ wallets.
Proof. unfold deduplicateWalletsByArchitecture. by rewrite deduplicate_foldl. Qed.

Lemma keep_new_sublist keyCount seen wallets :
  keep_new keyCount seen wallets `sublist_of` wallets.
Proof.
  revert seen. induction wallets as [|w ws IH]; intros seen; simpl; [done|].
  destruct (decide _); [by apply sublist_cons|by apply sublist_skip].
Qed.

Lemma keep_new_elem keyCount seen wallets w :
  w ∈ keep_new keyCount seen wallets ↔
  ∃ pre post, wallets = pre ++ w :: post
    ∧ (canonicalizeWallet w keyCount ∉ seen)
    ∧ ∀ u, u ∈ pre → canonicalizeWallet u keyCount ≠ canonicalizeWallet w keyCount.
Proof.
  revert seen. induction wallets as [|a ws IH]; intros seen; simpl.
  - split; [by intros ?%elem_of_nil|]. by intros ([|??] & ? & ? & _).
  - destruct (decide (canonicalizeWallet a keyCount ∈ seen)) as [Ha|Ha].
    + rewrite IH. split.
      * intros (pre & post & -> & Hw & Hpre). exists (a :: pre), post.
        split; [done|]. split; [done|].
        intros u [->|Hu]%elem_of_cons; [congruence|by apply Hpre].
      * intros ([|a' pre] & post & Heq & Hw & Hpre); simplify_eq/=; [done|].
        exists pre, post. split; [done|]. split; [done|].
        intros u Hu. apply Hpre. by right.
    + rewrite elem_of_cons, IH. split.
      * intros [->|(pre & post & -> & Hw & Hpre)].
        { exists [], ws. split; [done|]. split; [done|].
          by intros u ?%elem_of_nil. }
        exists (a :: pre), post. split; [done|].
        rewrite not_elem_of_union, not_elem_of_singleton in Hw.
        split; [tauto|].
        intros u [->|Hu]%elem_of_cons; [intros Heq; by destruct Hw|by apply Hpre].
      * intros ([|a' pre] & post & Heq & Hw & Hpre); simplify_eq/=; [by left|].
        right. exists pre, post. split; [done|]. split.
        { rewrite not_elem_of_union, not_elem_of_singleton. split; [|done].
          intros Heq. eapply Hpre; [left|done]. }
        intros u Hu. apply Hpre. by right.
Qed.

Lemma keep_new_NoDup keyCount seen wallets :
  NoDup ((λ w, canonicalizeWallet w keyCount) <$> keep_new keyCount seen wallets).
Proof.
  revert seen. induction wallets as [|a ws IH]; intros seen; simpl.
  - constructor.
  - destruct (decide _) as [Ha|Ha]; [apply IH|].
    rewrite fmap_cons. constructor; [|apply IH].
    intros (u & Heq & Hu)%list_elem_of_fmap.
    apply keep_new_elem in Hu as (_ & _ & _ & Hu & _).
    apply Hu. rewrite <-Heq. apply elem_of_union_l. by apply elem_of_singleton.
Qed.

Lemma keep_new_cover keyCount seen wallets w :
  w ∈ wallets →
  canonicalizeWallet w keyCount ∈ seen
  ∨ ∃ u, u ∈ keep_new keyCount seen wallets
         ∧ canonicalizeWallet u keyCount = canonicalizeWallet w keyCount.
Proof.
  revert seen. induction wallets as [|a ws IH]; intros seen; simpl.
  - by intros ?%elem_of_nil.
  - intros [->|Hw]%elem_of_cons.
    + destruct (decide _) as [Ha|Ha]; [by left|].
      right. exists a. split; [left|done].
    + destruct (decide _) as [Ha|Ha]; [by apply IH|].
      destruct (IH ({[canonicalizeWallet a keyCount]} ∪ seen) Hw)
        as [[Hin|Hin]%elem_of_union|(u & Hu & Heq)].
      * apply elem_of_singleton in Hin. right. exists a. split; [left|done].
      * by left.
      * right. exists u. split; [by right|done].
Qed.

Lemma keep_new_idemp keyCount seen wallets :
  keep_new keyCount seen (keep_new keyCount seen wallets)
  = keep_new keyCount seen wallets.
Proof.
  revert seen. induction wallets as [|a ws IH]; intros seen; simpl; [done|].
  destruct (decide _) as [Ha|Ha]; [apply IH|]. simpl.
  destruct (decide _) as [Ha'|Ha']; [done|]. by rewrite IH.
Qed.

Lemma NoDup_fmap_eq {A B} (f : A → B) (l : list A) a b :
  NoDup (f <$> l) → a ∈ l → b ∈ l → f a = f b → a = b.
Proof.
  induction l as [|x l IH]; [by intros _ ?%elem_of_nil|].
  rewrite fmap_cons. intros [Hx Hl]%NoDup_cons.
  intros [->|Ha]%elem_of_cons [->|Hb]%elem_of_cons Heq; [done| | |by apply IH].
  - destruct Hx. rewrite Heq. by apply list_elem_of_fmap_2.
  - destruct Hx. rewrite <-Heq. by apply list_elem_of_fmap_2.
Qed.

(** X8: [deduplicateWalletsByArchitecture] returns a sublist of [wallets]:
    the wallets it keeps are wallets of the input, in the order of the input,
    and none is kept more often than it occurs. *)
Theorem deduplicateWalletsByArchitecture_sublist
    (wallets : list (list Z)) (keyCount : Z) :
  deduplicateWalletsByArchitecture wallets keyCount `sublist_of` wallets
  ∧ (length (deduplicateWalletsByArchitecture wallets keyCount)
     ≤ length wallets)%nat.
Proof.
  rewrite deduplicate_keep_new.
  pose proof (keep_new_sublist keyCount ∅ wallets) as Hsub.
  split; [done|]. by apply sublist_length.
Qed.

(** X9: [deduplicateWalletsByArchitecture] keeps a wallet exactly when it
    occurs in [wallets] with no wallet of the same canonical form before it:
    the first wallet of every canonical form is kept, later ones are
    dropped. *)
Theorem deduplicateWalletsByArchitecture_first
    (wallets : list (list Z)) (keyCount : Z) (w : list Z) :
  w ∈ deduplicateWalletsByArchitecture wallets keyCount ↔
  ∃ pre post, wallets = pre ++ w :: post
    ∧ ∀ u, u ∈ pre →
           canonicalizeWallet u keyCount ≠ canonicalizeWallet w keyCount.
Proof.
  rewrite deduplicate_keep_new, keep_new_elem. split.
  - intros (pre & post & ? & _ & ?). by exists pre, post.
  - intros (pre & post & ? & ?). exists pre, post.
    split; [done|]. split; [apply not_elem_of_empty|done].
Qed.

(** X10: the wallets [deduplicateWalletsByArchitecture] keeps have pairwise
    different canonical forms, and every wallet of the input has the
    canonical form of a kept wallet. *)
Theorem deduplicateWalletsByArchitecture_representatives
    (wallets : list (list Z)) (keyCount : Z) :
  let unique := deduplicateWalletsByArchitecture wallets keyCount in
  NoDup ((λ w, canonicalizeWallet w keyCount) <$> unique)
  ∧ ∀ w, w ∈ wallets →
         ∃ u, u ∈ unique
              ∧ canonicalizeWallet u keyCount = canonicalizeWallet w keyCount.
Proof.
  simpl. rewrite deduplicate_keep_new. split; [apply keep_new_NoDup|].
  intros w Hw.
  by destruct (keep_new_cover keyCount ∅ wallets w Hw) as [?%elem_of_empty|?].
Qed.

(** X11: [deduplicateWalletsByArchitecture] is idempotent: deduplicating its
    result again returns the same list. *)
Theorem deduplicateWalletsByArchitecture_idempotent
    (wallets : list (list Z)) (keyCount : Z) :
  deduplicateWalletsByArchitecture
    (deduplicateWalletsByArchitecture wallets keyCount) keyCount
  = deduplicateWalletsByArchitecture wallets keyCount.
Proof. rewrite !deduplicate_keep_new. apply keep_new_idemp. Qed.

(** ** [enumerateStaticWallets] with deduplication *)

Lemma antichain_enumerated keyCount s :
  s ≠ [] → Forall (λ c, 1 ≤ c ≤ 2 ^ keyCount - 1) s → antichain s →
  ∃ w, w ∈ enumerateStaticWallets keyCount false ∧ w ≡ₚ s.
Proof.
  intros Hne Hall Hanti.
  set (w := filter (λ c, c ∈ s) (range 1 (2 ^ keyCount))).
  assert (∀ c, c ∈ w ↔ c ∈ s) as Hw.
  { intros c. unfold w, range. rewrite list_elem_of_filter, elem_of_seqZ.
    rewrite Forall_forall in Hall. split; [tauto|].
    intros Hc. specialize (Hall c Hc). split; [done|lia]. }
  apply antichain_alt in Hanti as [Hnd Hanti].
  assert (NoDup w) as Hndw by apply NoDup_filter, NoDup_seqZ.
  exists w. split; [|by apply NoDup_Permutation].
  apply enumerateStaticWallets_spec. split; [|split; [|split]].
  - destruct s as [|c s]; [done|]. intros Hnil.
    assert (c ∈ w) as Hc by (apply Hw; left). rewrite Hnil in Hc.
    by apply elem_of_nil in Hc.
  - rewrite Forall_forall in Hall. apply Forall_forall.
    intros c Hc. by apply Hall, Hw.
  - apply StronglySorted_filter, StronglySorted_lt_seqZ.
  - apply antichain_alt. split; [done|].
    intros a b Ha Hb. apply Hanti; by apply Hw.
Qed.

(** X12: with [deduplicate_by_architecture=True] and [keyCount >= 0],
    [enumerateStaticWallets] returns one wallet per architecture.  Its
    wallets are wallets of the list without deduplication, in the same
    order; every non-empty antichain of masks in [1, 2^keyCount - 1] is
    turned into the combinations of one of them by [permuteBits] with a
    permutation of [1..keyCount]; and no permutation of [1..keyCount] turns
    one of them into another. *)
Theorem enumerateStaticWallets_architectures (keyCount : Z) :
  0 ≤ keyCount →
  let unique := enumerateStaticWallets keyCount true in
  unique `sublist_of` enumerateStaticWallets keyCount false
  ∧ (∀ s, s ≠ [] → Forall (λ c, 1 ≤ c ≤ 2 ^ keyCount - 1) s → antichain s →
       ∃ u pi, u ∈ unique ∧ pi ≡ₚ range 1 (keyCount + 1)
               ∧ (λ c, permuteBits c pi) <$> s ≡ₚ u)
  ∧ (∀ u u' pi, u ∈ unique → u' ∈ unique → pi ≡ₚ range 1 (keyCount + 1) →
       (λ c, permuteBits c pi) <$> u ≡ₚ u' → u = u').
Proof.
  intros Hk unique.
  assert (unique = keep_new keyCount ∅ (enumerateStaticWallets keyCount false))
    as Hu by apply deduplicate_keep_new.
  pose proof (keep_new_sublist keyCount ∅ (enumerateStaticWallets keyCount false))
    as Hsub.
  rewrite <-Hu in Hsub. split; [done|]. split.
  - intros s Hne Hall Hanti.
    destruct (antichain_enumerated keyCount s) as (w & Hw & Hp); [done..|].
    destruct (keep_new_cover keyCount ∅ _ w Hw)
      as [?%elem_of_empty|(u & Hin & Heq)]; [done|].
    rewrite <-Hu in Hin.
    rewrite (canonicalizeWallet_Permutation _ _ keyCount Hp) in Heq.
    destruct (canonicalizeWallet_eq_relabel s u keyCount) as (pi & Hpi & Hr).
    + done.
    + eapply elem_of_sublist in Hin; [|done].
      apply enumerateStaticWallets_spec in Hin as (_ & Hrange & _).
      eapply Forall_impl; [done|]. simpl. lia.
    + done.
    + by exists u, pi.
  - intros u u' pi Hin Hin' Hpi Hr.
    apply (NoDup_fmap_eq (λ w, canonicalizeWallet w keyCount) unique);
      [|done..|].
    + rewrite Hu. apply keep_new_NoDup.
    + by apply (canonicalizeWallet_relabel_eq _ _ _ pi).
Qed.

Lemma enumerateStaticWallets_architectures_witness :
  enumerateStaticWallets 2 true `sublist_of` enumerateStaticWallets 2 false.
Proof. apply (enumerateStaticWallets_architectures 2). lia. Defined.

(** ** [ownerAdvKeysFromStates] *)

(** X13: [ownerAdvKeysFromStates] returns one owner mask and one adversary
    mask per state, at the position of the state.  Both are masks of
    [len(state)] bits; bit [j] of the owner mask is set exactly when key [j]
    of the state is [SAFE] or [LEAKED], bit [j] of the adversary mask exactly
    when it is [LEAKED] or [STOLEN]. *)
Theorem ownerAdvKeysFromStates_bits
    (states : list (list KeyState)) (i : nat) (state : list KeyState) :
  states !! i = Some state →
  length (ownerAdvKeysFromStates states).1 = length states
  ∧ length (ownerAdvKeysFromStates states).2 = length states
  ∧ ∃ ownerState advState,
      (ownerAdvKeysFromStates states).1 !! i = Some ownerState
      ∧ (ownerAdvKeysFromStates states).2 !! i = Some advState
      ∧ 0 ≤ ownerState < 2 ^ Z.of_nat (length state)
      ∧ 0 ≤ advState < 2 ^ Z.of_nat (length state)
      ∧ ∀ j keyState, state !! j = Some keyState →
          Z.testbit ownerState (Z.of_nat j)
          = match keyState with SAFE | LEAKED => true | _ => false end
          ∧ Z.testbit advState (Z.of_nat j)
            = match keyState with LEAKED | STOLEN => true | _ => false end.
Proof.
  intros Hi. rewrite ownerAdvKeysFromStates_fmap. simpl.
  rewrite !length_fmap. split; [done|]. split; [done|].
  exists (ownerState_of state), (advState_of state).
  rewrite !list_lookup_fmap, Hi. split; [done|]. split; [done|].
  rewrite ownerState_of_mask, advState_of_mask.
  pose proof (bits_mask_bounds (owner_has <$> state)) as Ho.
  pose proof (bits_mask_bounds (adv_has <$> state)) as Ha.
  rewrite length_fmap in Ho, Ha. split; [done|]. split; [done|].
  intros j keyState Hj.
  rewrite !bits_mask_testbit, !list_lookup_fmap, Hj. simpl.
  by destruct keyState.
Qed.

Lemma ownerAdvKeysFromStates_bits_witness :
  ∃ ownerState advState,
    (ownerAdvKeysFromStates [[SAFE; STOLEN]; [LEAKED; LOST]]).1 !! 1%nat
    = Some ownerState
    ∧ (ownerAdvKeysFromStates [[SAFE; STOLEN]; [LEAKED; LOST]]).2 !! 1%nat
      = Some advState
    ∧ Z.testbit ownerState 0 = true ∧ Z.testbit advState 0 = true
    ∧ Z.testbit ownerState 1 = false ∧ Z.testbit advState 1 = false.
Proof.
  destruct (ownerAdvKeysFromStates_bits
              [[SAFE; STOLEN]; [LEAKED; LOST]] 1 [LEAKED; LOST] eq_refl)
    as (_ & _ & o & a & Ho & Ha & _ & _ & Hbits).
  exists o, a. split; [exact Ho|]. split; [exact Ha|].
  destruct (Hbits 0%nat LEAKED eq_refl) as [Ho0 Ha0].
  destruct (Hbits 1%nat LOST eq_refl) as [Ho1 Ha1].
  split; [exact Ho0|]. split; [exact Ha0|]. split; [exact Ho1|exact Ha1].
Defined.

(** ** [enumerateStates] *)

Lemma all_states_count cs n :
  consts_ok cs → Z.of_nat (length (all_states cs n)) = 4 ^ Z.of_nat (S n).
Proof.
  intros [Hk Hs]. induction n as [|n IH].
  - simpl. rewrite length_fmap, Hs, Hk. done.
  - cbn [all_states]. rewrite Hk. cbn [mbind list_bind].
    rewrite !length_app, !length_fmap. simpl length.
    rewrite (Nat2Z.inj_succ (S n)), Z.pow_succ_r by lia. lia.
Qed.

(** X14: for [keyCount >= 1] and a dict whose keys are the four key states,
    [enumerateStates] returns every assignment of a key state to each of the
    [keyCount] keys exactly once: [4 ** keyCount] states, without
    repetition, a list being among them exactly when it has [keyCount]
    entries; and it returns one probability per state. *)
Theorem enumerateStates_complete {F} `{PyFloat F}
    (cs : consts) (keyCount : Z) (p : gmap key F) :
  consts_ok cs → 1 ≤ keyCount → dom p = four_states →
  ∃ states probabilities,
    enumerateStates cs keyCount p = OK (states, probabilities)
    ∧ Z.of_nat (length states) = 4 ^ keyCount
    ∧ length probabilities = length states
    ∧ NoDup states
    ∧ ∀ state : list KeyState,
        state ∈ states ↔ Z.of_nat (length state) = keyCount.
Proof.
  intros Hcs Hk Hdom.
  destruct (dict_defined p) as [P HP].
  { intros s. by apply four_states_defined. }
  eexists _, _. split.
  { apply (enumerateStates_all cs keyCount p P); [done..|].
    right. by rewrite consts_ok_set. }
  assert (S (Z.to_nat (keyCount - 1)) = Z.to_nat keyCount) as Hn by lia.
  split; [|split; [|split]].
  - rewrite all_states_count, Hn by done. f_equal. lia.
  - by rewrite length_fmap.
  - by apply all_states_NoDup.
  - intros state. rewrite elem_of_all_states, Hn by done. lia.
Qed.

Lemma enumerateStates_complete_witness :
  ∃ states probabilities,
    enumerateStates spec_consts 2 (state_dict 0.5 0.25 0.125 0.125)%float
    = OK (states, probabilities)
    ∧ Z.of_nat (length states) = 4 ^ 2.
Proof.
  destruct (enumerateStates_complete (F:=float) spec_consts 2
              (state_dict 0.5 0.25 0.125 0.125)%float)
    as (states & probabilities & Hr & Hlen & _).
  - apply consts_ok_spec.
  - lia.
  - apply dom_state_dict.
  - by exists states, probabilities.
Defined.

Lemma state_probability_foldr {F} `{PyFloat F} (P : KeyState → F)
    (init : list KeyState) (last : KeyState) :
  state_probability P (init ++ [last])
  = foldr (λ s acc, f_mul (P s) acc) (P last) init.
Proof.
  induction init as [|s init IH]; [done|].
  cbn [app foldr]. rewrite <-IH.
  cbn [state_probability]. by destruct init.
Qed.

(** X15: the probability [enumerateStates] returns at the position of a
    state [[s1, ..., sk]] is the product of the probabilities the dict gives
    to its key states, multiplied as the code does, from the last key to the
    first: [p[s1] * (p[s2] * (... * p[sk]))]. *)
Theorem enumerateStates_product {F} `{PyFloat F}
    (cs : consts) (keyCount : Z) (p : gmap key F)
    (P : KeyState → F) (states : list (list KeyState)) (probabilities : list F)
    (i : nat) (state : list KeyState) :
  consts_ok cs → 1 ≤ keyCount → dom p = four_states →
  (∀ s, p !! State s = Some (P s)) →
  enumerateStates cs keyCount p = OK (states, probabilities) →
  states !! i = Some state →
  ∃ init last,
    state = init ++ [last]
    ∧ probabilities !! i
      = Some (foldr (λ s acc, f_mul (P s) acc) (P last) init).
Proof.
  intros Hcs Hk Hdom HP Hr Hi.
  rewrite (enumerateStates_all cs keyCount p P) in Hr; [|done..|].
  2: { right. by rewrite consts_ok_set. }
  injection Hr as <- <-.
  assert (state ≠ []) as Hne.
  { apply list_elem_of_lookup_2, all_states_length in Hi. by destruct state. }
  destruct (exists_last Hne) as (init & last & ->).
  exists init, last. split; [done|].
  by rewrite list_lookup_fmap, Hi, <-state_probability_foldr.
Qed.

Lemma enumerateStates_product_witness :
  ∃ states probabilities,
    enumerateStates spec_consts 2 (state_dict 0.5 0.25 0.125 0.125)%float
    = OK (states, probabilities)
    ∧ states !! 5%nat = Some [LOST; LOST]
    ∧ probabilities !! 5%nat = Some (0.25 * 0.25)%float.
Proof.
  set (p := (state_dict 0.5 0.25 0.125 0.125)%float).
  set (P := λ s, match s with
                 | SAFE => 0.5 | LOST => 0.25 | LEAKED => 0.125
                 | STOLEN => 0.125
                 end%float).
  destruct (enumerateStates spec_consts 2 p) as [[states probabilities]|e] eqn:Hr;
    [|by vm_compute in Hr].
  assert (states !! 5%nat = Some [LOST; LOST]) as Hi.
  { vm_compute in Hr. by injection Hr as <- _. }
  destruct (enumerateStates_product (F:=float) spec_consts 2 p P states
              probabilities 5 [LOST; LOST]) as (init & last & Hsplit & Hq).
  - apply consts_ok_spec.
  - lia.
  - apply dom_state_dict.
  - by intros [].
  - done.
  - done.
  - exists states, probabilities. split; [done|]. split; [done|].
    destruct init as [|s0 [|s1 init]]; simplify_eq/=.
    + exact Hq.
    + by destruct init.
Defined.

(** ** [computeSuccessProbability] *)

Lemma for_each_invariant {A B} (I : nat → B → Prop)
    (body : B → A → result B) (l : list A) (st : B) :
  I 0%nat st →
  (∀ i x st, l !! i = Some x → I i st → ∃ st', body st x = OK st' ∧ I (S i) st') →
  ∃ r, for_each body st l = OK r ∧ I (length l) r.
Proof.
  revert I st. induction l as [|x l IH]; intros I st H0 Hstep; simpl.
  - by exists st.
  - destruct (Hstep 0%nat x st eq_refl H0) as (st' & -> & H1). simpl.
    apply (IH (λ i, I (S i))); [done|].
    intros i y st'' Hy. by apply (Hstep (S i)).
Qed.

Lemma getitem_None {A} (l : list A) i :
  l !! i = None → getitem l (Z.of_nat i) = Raise IndexError.
Proof.
  intros Hi. unfold getitem.
  destruct (Z.ltb_spec (Z.of_nat i) 0); [lia|].
  destruct (Z.ltb_spec (Z.of_nat i) 0); [lia|].
  by rewrite Nat2Z.id, Hi.
Qed.

Lemma range_lookup (n i : nat) :
  (i < n)%nat → range 0 (Z.of_nat n) !! i = Some (Z.of_nat i).
Proof.
  intros Hi. unfold range. rewrite lookup_seqZ. split; lia.
Qed.

Lemma range_lookup_inv (n i : nat) x :
  range 0 (Z.of_nat n) !! i = Some x → x = Z.of_nat i ∧ (i < n)%nat.
Proof. unfold range. rewrite lookup_seqZ. lia. Qed.

(** One round of the loop of [computeSuccessProbability], at an index where
    the three lists are defined. *)
Lemma computeSuccessProbability_round {F} `{PyFloat F}
    (wallet ownerStates advStates : list Z) (probabilities : list F)
    i ownerState advState pState (total : F) :
  ownerStates !! i = Some ownerState → advStates !! i = Some advState →
  probabilities !! i = Some pState →
  (ownerState ← getitem ownerStates (Z.of_nat i);
   advState ← getitem advStates (Z.of_nat i);
   if isCovered ownerState wallet && negb (isCovered advState wallet)
   then pState ← getitem probabilities (Z.of_nat i); OK (f_add total pState)
   else OK total)
  = OK (if isCovered ownerState wallet && negb (isCovered advState wallet)
        then f_add total pState else total).
Proof.
  intros Ho Ha Hp.
  rewrite (getitem_lookup _ _ _ Ho). simpl.
  rewrite (getitem_lookup _ _ _ Ha). simpl.
  destruct (_ && _); [|done]. by rewrite (getitem_lookup _ _ _ Hp).
Qed.

(** An invariant of the running total is kept by the whole loop. *)
Lemma computeSuccessProbability_invariant {F} `{PyFloat F}
    (I : nat → F → Prop)
    (wallet ownerStates advStates : list Z) (probabilities : list F) :
  (length probabilities ≤ length ownerStates)%nat →
  (length probabilities ≤ length advStates)%nat →
  I 0%nat f_zero →
  (∀ i ownerState advState pState total,
     ownerStates !! i = Some ownerState → advStates !! i = Some advState →
     probabilities !! i = Some pState → I i total →
     I (S i) (if isCovered ownerState wallet
                 && negb (isCovered advState wallet)
              then f_add total pState else total)) →
  ∃ q, computeSuccessProbability wallet ownerStates advStates probabilities
       = OK q ∧ I (length probabilities) q.
Proof.
  intros Hlo Hla H0 Hstep. unfold computeSuccessProbability.
  match goal with
  | |- ∃ q, for_each ?body ?st ?l = _ ∧ _ =>
      destruct (for_each_invariant I body l st) as (q & Hq & HI);
        [exact H0| |]
  end.
  2: { exists q. split; [exact Hq|].
       unfold range in HI. rewrite length_seqZ in HI.
       by replace (Z.to_nat (Z.of_nat (length probabilities) - 0))
         with (length probabilities) in HI by lia. }
  intros i x total [-> Hi]%range_lookup_inv HI.
  destruct (lookup_lt_is_Some_2 ownerStates i) as [o Ho]; [lia|].
  destruct (lookup_lt_is_Some_2 advStates i) as [a Ha]; [lia|].
  destruct (lookup_lt_is_Some_2 probabilities i) as [pS Hp]; [lia|].
  eexists. split.
  - by apply computeSuccessProbability_round.
  - by apply Hstep.
Qed.

Lemma for_each_ext_in {A B} (body body' : B → A → result B) (l : list A) st :
  (∀ st x, x ∈ l → body st x = body' st x) →
  for_each body st l = for_each body' st l.
Proof.
  revert st. induction l as [|x l IH]; intros st Hext; simpl; [done|].
  rewrite Hext by left. destruct (body' st x); simpl; [|done].
  apply IH. intros st' y Hy. apply Hext. by right.
Qed.

Lemma getitem_take {A} (l : list A) (n : nat) i :
  0 ≤ i < Z.of_nat n → getitem (take n l) i = getitem l i.
Proof.
  intros Hi. unfold getitem.
  destruct (Z.ltb_spec i 0); [lia|]. destruct (Z.ltb_spec i 0); [lia|].
  by rewrite lookup_take_lt by lia.
Qed.

(** X16: [computeSuccessProbability] reads [ownerStates[i]] and
    [advStates[i]] for every index of [probabilities].  It returns a float
    when both lists are at least as long as [probabilities], and raises
    [IndexError] when one of them is shorter, whatever the wallet; what the
    two lists hold beyond the length of [probabilities] is never read. *)
Theorem computeSuccessProbability_IndexError {F} `{PyFloat F}
    (wallet ownerStates advStates : list Z) (probabilities : list F) :
  ((length probabilities ≤ length ownerStates)%nat →
   (length probabilities ≤ length advStates)%nat →
   ∃ q, computeSuccessProbability wallet ownerStates advStates probabilities
        = OK q)
  ∧ ((length ownerStates < length probabilities)%nat
     ∨ (length advStates < length probabilities)%nat →
     computeSuccessProbability wallet ownerStates advStates probabilities
     = Raise IndexError)
  ∧ computeSuccessProbability wallet
      (take (length probabilities) ownerStates)
      (take (length probabilities) advStates) probabilities
    = computeSuccessProbability wallet ownerStates advStates probabilities.
Proof.
  split; [|split].
  - intros Hlo Hla.
    destruct (computeSuccessProbability_invariant (λ _ _, True)
                wallet ownerStates advStates probabilities)
      as (q & Hq & _); [done..|]. by exists q.
  - intros Hshort. unfold computeSuccessProbability.
    set (m := (length ownerStates `min` length advStates)%nat).
    set (n := length probabilities).
    assert (m < n)%nat as Hm by lia.
    assert (range 0 (Z.of_nat n)
            = range 0 (Z.of_nat m) ++ Z.of_nat m :: seqZ (Z.of_nat m + 1)
                                        (Z.of_nat n - Z.of_nat m - 1)) as ->.
    { unfold range.
      replace (Z.of_nat n - 0) with (Z.of_nat m + (Z.of_nat n - Z.of_nat m))
        by lia.
      rewrite seqZ_app by lia.
      rewrite (seqZ_cons (0 + Z.of_nat m)) by lia.
      repeat f_equal; lia. }
    rewrite for_each_app.
    match goal with
    | |- (_ ← for_each ?body ?st ?l; _) = _ =>
        destruct (for_each_invariant (λ _ (_ : F), True) body l st)
          as (q & -> & _); [done| |]
    end.
    { intros i x total [-> Hi]%range_lookup_inv _.
      destruct (lookup_lt_is_Some_2 ownerStates i) as [o Ho]; [lia|].
      destruct (lookup_lt_is_Some_2 advStates i) as [a Ha]; [lia|].
      destruct (lookup_lt_is_Some_2 probabilities i) as [pS Hp]; [fold n; lia|].
      eexists. split; [|done].
      by apply computeSuccessProbability_round. }
    simpl.
    destruct (ownerStates !! m) as [o|] eqn:Ho.
    + rewrite (getitem_lookup _ _ _ Ho). simpl.
      rewrite (getitem_None advStates); [reflexivity|].
      apply lookup_ge_None_2. apply lookup_lt_Some in Ho. lia.
    + rewrite (getitem_None ownerStates); [reflexivity|done].
  - unfold computeSuccessProbability. apply for_each_ext_in.
    intros total i Hi. unfold range in Hi. apply elem_of_seqZ in Hi.
    rewrite !getitem_take by lia. done.
Qed.

Lemma computeSuccessProbability_IndexError_witness :
  computeSuccessProbability [1] [1; 0] [0] [0.5; 0.5]%float = Raise IndexError.
Proof.
  destruct (computeSuccessProbability_IndexError (F:=float)
              [1] [1; 0] [0] [0.5; 0.5]%float) as (_ & Hraise & _).
  apply Hraise. right. simpl. lia.
Defined.

(** X18: the empty wallet, and every wallet that holds the combination [0]
    (no key at all), has success probability exactly [0.0]: the empty wallet
    is never covered, and the combination [0] is covered by the adversary in
    every state. *)
Theorem computeSuccessProbability_zero {F} `{PyFloat F}
    (wallet ownerStates advStates : list Z) (probabilities : list F) :
  (length probabilities ≤ length ownerStates)%nat →
  (length probabilities ≤ length advStates)%nat →
  wallet = [] ∨ 0 ∈ wallet →
  computeSuccessProbability wallet ownerStates advStates probabilities
  = OK f_zero.
Proof.
  intros Hlo Hla Hw.
  destruct (computeSuccessProbability_invariant (λ _ q, q = f_zero)
              wallet ownerStates advStates probabilities)
    as (q & Hq & ->); [done..| |done].
  intros i o a pS t _ _ _ ->.
  destruct Hw as [->|H0]; [done|].
  assert (isCovered a wallet = true) as ->.
  { apply isCovered_true. exists 0. split; [done|]. apply Z.land_0_l. }
  by rewrite andb_false_r.
Qed.

Lemma computeSuccessProbability_zero_witness :
  computeSuccessProbability [0; 3] [1; 3] [0; 2] [0.5; 0.5]%float
  = OK 0%float.
Proof.
  refine (computeSuccessProbability_zero (F:=float) [0; 3] [1; 3] [0; 2]
            [0.5; 0.5]%float _ _ _).
  - simpl. lia.
  - simpl. lia.
  - right. left.
Defined.

(** X19: the success probability depends on the wallet only as a set of
    minimal combinations: reordering the combinations of a wallet, or adding
    a combination [c'] that contains a combination [c] of the wallet
    ([c & c' == c]), changes neither the float returned nor the failure. *)
Theorem computeSuccessProbability_redundant {F} `{PyFloat F}
    (wallet wallet' ownerStates advStates : list Z) (probabilities : list F) :
  wallet' ≡ₚ wallet
  ∨ (∃ c c', c ∈ wallet ∧ Z.land c c' = c ∧ wallet' ≡ₚ c' :: wallet) →
  computeSuccessProbability wallet' ownerStates advStates probabilities
  = computeSuccessProbability wallet ownerStates advStates probabilities.
Proof.
  intros Hw.
  assert (∀ m, isCovered m wallet' = isCovered m wallet) as Hcov.
  { intros m. apply eq_true_iff_eq. rewrite !isCovered_true.
    destruct Hw as [Hp|(c & c' & Hc & Hcc & Hp)].
    - by setoid_rewrite Hp.
    - setoid_rewrite Hp. setoid_rewrite elem_of_cons. split.
      + intros (x & [->|Hx] & Hl); [|by exists x].
        exists c. split; [done|].
        rewrite <-Hcc, <-Z.land_assoc, Hl. done.
      + intros (x & Hx & Hl). exists x. split; [by right|done]. }
  unfold computeSuccessProbability. apply for_each_ext.
  intros total i.
  destruct (getitem ownerStates i) as [o|e]; simpl; [|done].
  destruct (getitem advStates i) as [a|e]; simpl; [|done].
  by rewrite !Hcov.
Qed.

Lemma computeSuccessProbability_redundant_witness :
  computeSuccessProbability [3; 1] [1; 3] [0; 2] [0.5; 0.25]%float
  = computeSuccessProbability [1] [1; 3] [0; 2] [0.5; 0.25]%float.
Proof.
  apply (computeSuccessProbability_redundant (F:=float)).
  right. exists 1, 3. split; [left|]. split; [done|]. done.
Defined.

(** ** [enumerateStates]: which error *)

Lemma comprehension_dict_get {V} (p : gmap key V) (l : list KeyState) :
  (∃ r, comprehension (λ state, dict_get p (State state)) l = OK r)
  ∨ (∃ s, s ∈ l ∧ p !! State s = None
          ∧ comprehension (λ state, dict_get p (State state)) l
            = Raise (KeyError (State s))).
Proof.
  induction l as [|s l IH]; cbn [comprehension]; [left; by eexists|].
  destruct (p !! State s) as [v|] eqn:Hs.
  - assert (dict_get p (State s) = OK v) as -> by (unfold dict_get; by rewrite Hs).
    destruct IH as [[r ->]|(s' & Hs' & Hnone & ->)]; simpl.
    + left. by eexists.
    + right. exists s'. split; [by right|done].
  - assert (dict_get p (State s) = Raise (KeyError (State s))) as ->
      by (unfold dict_get; by rewrite Hs).
    right. exists s. split; [left|done].
Qed.

(** X20: which error [enumerateStates] raises on a dict that is not the dict
    of the four key states.  For [keyCount >= 2] it raises [AssertionError]
    exactly when the keys of the dict are not the four key states, an
    additional key included.  For [keyCount == 1] the keys are not compared:
    additional keys are accepted, and a missing key state raises the
    [KeyError] of a missing key state. *)
Theorem enumerateStates_errors {F} `{PyFloat F}
    (cs : consts) (keyCount : Z) (p : gmap key F) :
  consts_ok cs →
  (2 ≤ keyCount →
     enumerateStates cs keyCount p = Raise AssertionError
     ↔ dom p ≠ four_states)
  ∧ (keyCount = 1 →
     ((∀ s, is_Some (p !! State s)) →
        ∃ r, enumerateStates cs keyCount p = OK r)
     ∧ ((∃ s, p !! State s = None) →
        ∃ s, p !! State s = None
             ∧ enumerateStates cs keyCount p = Raise (KeyError (State s)))).
Proof.
  intros Hcs. split.
  - intros Hk. split.
    + intros Hr Hdom.
      destruct (enumerateStates_OK cs keyCount p Hcs) as [r Hr']; [lia|done|].
      congruence.
    + intros Hdom. unfold enumerateStates.
      destruct (Z.to_nat keyCount) as [|fuel] eqn:Hfuel; [lia|].
      cbn [enumerateStates_fuel].
      destruct (Z.leb_spec keyCount 0); [lia|].
      destruct (Z.eqb_spec keyCount 1); [lia|].
      rewrite bool_decide_eq_false_2; [done|].
      by rewrite consts_ok_set.
  - intros ->. unfold enumerateStates.
    assert (enumerateStates_fuel cs (Z.to_nat 1) 1 p
            = (probabilities ←
                 comprehension (λ state, dict_get p (State state))
                               (sorted_KeyStates cs);
               OK ((λ state, [state]) <$> sorted_KeyStates cs, probabilities)))
      as -> by reflexivity.
    destruct (comprehension_dict_get p (sorted_KeyStates cs))
      as [[r Hr]|(s & Hs & Hnone & Hr)]; rewrite Hr; simpl; split.
    + intros _. by eexists.
    + intros [s Hs]. exfalso.
      destruct (comprehension_Raise
                  (λ state, dict_get p (State state)) (sorted_KeyStates cs)
                  s (KeyError (State s))) as [e He].
      * by apply consts_ok_elem.
      * unfold dict_get. by rewrite Hs.
      * congruence.
    + intros Hall. destruct (Hall s) as [v Hv]. congruence.
    + intros _. by exists s.
Qed.

Lemma enumerateStates_errors_witness :
  enumerateStates spec_consts 2
    (<[Other 0 := 0.5%float]> (state_dict 0.25 0.25 0.25 0.25)%float)
  = Raise AssertionError.
Proof.
  destruct (enumerateStates_errors (F:=float) spec_consts 2
              (<[Other 0 := 0.5%float]> (state_dict 0.25 0.25 0.25 0.25)%float)
              consts_ok_spec) as [Hassert _].
  apply Hassert; [lia|].
  intros Hdom.
  assert (Other 0 ∈ four_states) as Hin.
  { rewrite <-Hdom. apply elem_of_dom. by eexists. }
  unfold four_states in Hin.
  rewrite !elem_of_union, !elem_of_singleton in Hin.
  by destruct Hin as [[[?|?]|?]|?].
Defined.

(** ** [findOptimalWallet] *)

Lemma findOptimalWallet_step_sublist {F} `{PyFloat F}
    (g : list Z → F) (ws : list (list Z)) bw b pre :
  bw `sublist_of` pre →
  (foldl (λ st w, findOptimalWallet_step st w (g w)) (bw, b) ws).1
  `sublist_of` pre ++ ws.
Proof.
  revert bw b pre. induction ws as [|w ws IH]; intros bw b pre Hsub.
  - by rewrite app_nil_r.
  - rewrite cons_middle, app_assoc. cbn [foldl].
    unfold findOptimalWallet_step at 2.
    destruct (f_ltb _ f_tol); [|destruct (f_ltb b _)]; apply IH.
    + by apply sublist_app.
    + by apply sublist_inserts_l.
    + by apply sublist_inserts_r.
Qed.

(** X21: for [keyCount >= 1] and a dict of the four key states,
    [findOptimalWallet] returns for every list of wallets, and the best
    wallets it returns are wallets of the list, in the order of the list. *)
Theorem findOptimalWallet_returns {F} `{PyFloat F}
    (cs : consts) (wallets : list (list Z)) (keyCount : Z) (p : gmap key F) :
  consts_ok cs → 1 ≤ keyCount → dom p = four_states →
  ∃ bestWallets bestProbability,
    findOptimalWallet cs wallets keyCount p
    = OK (bestWallets, bestProbability)
    ∧ bestWallets `sublist_of` wallets.
Proof.
  intros Hcs Hk Hdom.
  destruct (dict_defined p) as [P HP]; [intros s; by apply four_states_defined|].
  unfold findOptimalWallet.
  rewrite (enumerateStates_all cs keyCount p P);
    [|done..|right; by rewrite consts_ok_set].
  simpl. rewrite ownerAdvKeysFromStates_fmap.
  set (states := all_states cs (Z.to_nat (keyCount - 1))).
  set (g := λ wallet : list Z,
    foldl (λ total state,
             if success wallet state
             then f_add total (state_probability P state) else total)
          f_zero states).
  rewrite (for_each_ext _
             (λ st wallet, OK (findOptimalWallet_step st wallet (g wallet)))).
  2: { intros st wallet. by rewrite computeSuccessProbability_states. }
  rewrite for_each_OK.
  pose proof (findOptimalWallet_step_sublist g wallets [] f_neg_one []) as Hsub.
  destruct (foldl _ _ wallets) as [bestWallets bestProbability].
  exists bestWallets, bestProbability. split; [done|]. by apply Hsub.
Qed.

Lemma findOptimalWallet_returns_witness :
  ∃ bestWallets bestProbability,
    findOptimalWallet spec_consts [[1; 2]; [3]] 2
      (state_dict 0.5 0.25 0.125 0.125)%float
    = OK (bestWallets, bestProbability)
    ∧ bestWallets `sublist_of` [[1; 2]; [3]].
Proof.
  apply (findOptimalWallet_returns (F:=float) spec_consts [[1; 2]; [3]] 2).
  - apply consts_ok_spec.
  - lia.
  - apply dom_state_dict.
Defined.

(** ** [enumerateStaticSubWallets] *)

Lemma chain_explicit k base prev ext :
  chain k base prev ext ↔
  StronglySorted Z.lt ext ∧ Forall (λ c, prev < c < 2 ^ k) ext
  ∧ ∀ i j a c, (i < j)%nat → (length base ≤ j)%nat →
      (base ++ ext) !! i = Some a → (base ++ ext) !! j = Some c →
      Z.land a c ≠ a.
Proof.
  revert base prev. induction ext as [|x ext IH]; intros base prev; simpl.
  - split; [intros _|done]. split; [constructor|]. split; [constructor|].
    intros i j a c _ Hj _ Hc. rewrite app_nil_r in Hc.
    apply lookup_lt_Some in Hc. lia.
  - rewrite IH, isCovered_false. split.
    + intros (Hx & Hcov & Hsort & Hall & Hanti). split; [|split].
      * constructor; [done|]. eapply Forall_impl; [done|]. simpl. lia.
      * constructor; [done|]. eapply Forall_impl; [done|]. simpl. lia.
      * intros i j a c Hij Hj Ha Hc.
        destruct (decide (j = length base)) as [->|Hne].
        -- rewrite list_lookup_middle in Hc by done. injection Hc as <-.
           rewrite lookup_app_l in Ha by done.
           apply Hcov. by eapply list_elem_of_lookup_2.
        -- rewrite cons_middle, (assoc_L (++)) in Ha, Hc.
           apply (Hanti i j); [done| |done..].
           rewrite length_app. simpl. lia.
    + intros (Hsort & Hall & Hanti).
      apply StronglySorted_inv in Hsort as [Hsort Hlt].
      apply Forall_cons in Hall as [Hx Hall].
      split; [done|]. split; [|split; [done|split]].
      * intros b [i Hb]%list_elem_of_lookup_1.
        apply (Hanti i (length base)).
        -- by apply lookup_lt_Some in Hb.
        -- done.
        -- by rewrite lookup_app_l by (by apply lookup_lt_Some in Hb).
        -- by rewrite list_lookup_middle.
      * rewrite Forall_forall in Hall, Hlt. apply Forall_forall.
        intros c Hc. specialize (Hall c Hc). specialize (Hlt c Hc). lia.
      * intros i j a c Hij Hj Ha Hc.
        rewrite <-(assoc_L (++)), <-cons_middle in Ha, Hc.
        apply (Hanti i j); [done| |done..].
        rewrite length_app in Hj. simpl in Hj. lia.
Qed.

(** X24: what [enumerateStaticSubWallets(baseWallet, prevCombi, keyCount)]
    returns, for [keyCount >= 0]: the wallets that extend [baseWallet] by a
    non-empty, strictly increasing run of combinations above [prevCombi] and
    below [2 ** keyCount], none of which contains a combination that
    precedes it in the wallet; each such wallet is returned once. *)
Theorem enumerateStaticSubWallets_extensions
    (baseWallet : list Z) (prevCombi keyCount : Z) :
  0 ≤ keyCount →
  (∀ w, w ∈ enumerateStaticSubWallets baseWallet prevCombi keyCount ↔
     ∃ ext, w = baseWallet ++ ext ∧ ext ≠ []
       ∧ StronglySorted Z.lt ext
       ∧ Forall (λ c, prevCombi < c < 2 ^ keyCount) ext
       ∧ ∀ i j a c, (i < j)%nat → (length baseWallet ≤ j)%nat →
           w !! i = Some a → w !! j = Some c → Z.land a c ≠ a)
  ∧ NoDup (enumerateStaticSubWallets baseWallet prevCombi keyCount).
Proof.
  intros _. split.
  - intros w. rewrite enumerateStaticSubWallets_spec.
    setoid_rewrite chain_explicit. split.
    + intros (ext & -> & Hne & Hsort & Hall & Hanti). by exists ext.
    + intros (ext & -> & Hne & Hsort & Hall & Hanti). by exists ext.
  - apply enumerateStaticSubWallets_fuel_NoDup.
Qed.

Lemma enumerateStaticSubWallets_extensions_witness :
  [3; 4] ∈ enumerateStaticSubWallets [3] 3 3.
Proof.
  destruct (enumerateStaticSubWallets_extensions [3] 3 3) as [Hspec _]; [lia|].
  apply Hspec. exists [4]. split; [done|]. split; [done|].
  split; [repeat constructor|]. split; [repeat constructor; lia|].
  intros [|[|i]] [|[|j]] a c Hij Hj Ha Hc; simplify_eq/=; try lia.
  done.
Defined.

(** ** The states in which every key is in the same key state *)

Lemma bits_mask_replicate_true n : bits_mask (replicate n true) = 2 ^ Z.of_nat n - 1.
Proof.
  induction n as [|n IH]; [done|].
  cbn [replicate bits_mask]. rewrite IH, Nat2Z.inj_succ, Z.pow_succ_r by lia.
  simpl Z.b2z. lia.
Qed.

Lemma bits_mask_replicate_false n : bits_mask (replicate n false) = 0.
Proof.
  induction n as [|n IH]; [done|]. cbn [replicate bits_mask]. rewrite IH. done.
Qed.

(** Who holds every key covers a non-empty wallet of masks of [n] bits; who
    holds no key covers no wallet of non-zero masks. *)
Lemma isCovered_all_keys wallet n :
  wallet ≠ [] → Forall (λ c, 1 ≤ c < 2 ^ Z.of_nat n) wallet →
  isCovered (2 ^ Z.of_nat n - 1) wallet = true.
Proof.
  intros Hne Hall. destruct wallet as [|c wallet]; [done|].
  apply Forall_cons in Hall as [Hc _].
  apply isCovered_true. exists c. split; [left|].
  replace (2 ^ Z.of_nat n - 1) with (Z.ones (Z.of_nat n))
    by (rewrite Z.ones_equiv; lia).
  rewrite Z.land_ones by lia. apply Z.mod_small. lia.
Qed.

Lemma isCovered_no_key wallet n :
  Forall (λ c, 1 ≤ c < 2 ^ Z.of_nat n) wallet → isCovered 0 wallet = false.
Proof.
  intros Hall. apply isCovered_false. intros c Hc.
  rewrite Forall_forall in Hall. specialize (Hall c Hc).
  rewrite Z.land_0_r. lia.
Qed.

(** X25: for [keyCount >= 1], a dict of the four key states and a non-empty
    wallet of non-zero masks of [keyCount] bits, the state in which every key
    is in the key state [s] is among the states of [enumerateStates], and at
    its position the owner is covered and the adversary is not exactly when
    [s] is [SAFE]: the state in which every key is safe counts towards the
    success probability of every such wallet, the states in which every key
    is lost, leaked or stolen never do. *)
Theorem computeSuccessProbability_uniform_states {F} `{PyFloat F}
    (cs : consts) (wallet : list Z) (keyCount : Z) (p : gmap key F)
    (states : list (list KeyState)) (probabilities : list F)
    (ownerStates advStates : list Z) (s : KeyState) :
  consts_ok cs → 1 ≤ keyCount → dom p = four_states →
  wallet ≠ [] → Forall (λ c, 1 ≤ c < 2 ^ keyCount) wallet →
  enumerateStates cs keyCount p = OK (states, probabilities) →
  ownerAdvKeysFromStates states = (ownerStates, advStates) →
  ∃ i ownerState advState,
    states !! i = Some (replicate (Z.to_nat keyCount) s)
    ∧ ownerStates !! i = Some ownerState
    ∧ advStates !! i = Some advState
    ∧ isCovered ownerState wallet && negb (isCovered advState wallet)
      = bool_decide (s = SAFE).
Proof.
  intros Hcs Hk Hdom Hne Hall Henum Hoa.
  destruct (dict_defined p) as [P HP]; [intros s'; by apply four_states_defined|].
  rewrite (enumerateStates_all cs keyCount p P) in Henum;
    [|done..|right; by rewrite consts_ok_set].
  injection Henum as <- <-.
  rewrite ownerAdvKeysFromStates_fmap in Hoa. injection Hoa as <- <-.
  set (n := Z.to_nat keyCount).
  assert (Z.of_nat n = keyCount) as Hn by lia.
  rewrite <-Hn in Hall.
  assert (replicate n s ∈ all_states cs (Z.to_nat (keyCount - 1))) as Hin.
  { apply elem_of_all_states; [done|]. rewrite length_replicate. lia. }
  apply list_elem_of_lookup_1 in Hin as [i Hi].
  exists i, (ownerState_of (replicate n s)), (advState_of (replicate n s)).
  rewrite !list_lookup_fmap, Hi. split; [done|]. split; [done|].
  split; [done|].
  rewrite ownerState_of_mask, advState_of_mask, !fmap_replicate.
  pose proof (isCovered_all_keys wallet n Hne Hall) as Hall_keys.
  pose proof (isCovered_no_key wallet n Hall) as Hno_key.
  destruct s; cbn [owner_has adv_has];
    rewrite ?bits_mask_replicate_true, ?bits_mask_replicate_false,
      ?Hall_keys, ?Hno_key; done.
Qed.

Lemma computeSuccessProbability_uniform_states_witness :
  let p := (state_dict 0.5 0.25 0.125 0.125)%float in
  ∃ states probabilities ownerStates advStates i ownerState advState,
    enumerateStates spec_consts 2 p = OK (states, probabilities)
    ∧ ownerAdvKeysFromStates states = (ownerStates, advStates)
    ∧ states !! i = Some [SAFE; SAFE]
    ∧ ownerStates !! i = Some ownerState
    ∧ advStates !! i = Some advState
    ∧ isCovered ownerState [1; 2] && negb (isCovered advState [1; 2]) = true.
Proof.
  intros p.
  edestruct (computeSuccessProbability_uniform_states (F:=float)
               spec_consts [1; 2] 2 p)
    as (i & o & a & Hi & Ho & Ha & Hs).
  - exact consts_ok_spec.
  - lia.
  - apply dom_state_dict.
  - done.
  - repeat constructor; lia.
  - vm_compute. reflexivity.
  - vm_compute. reflexivity.
  - eexists _, _, _, _, i, o, a.
    split; [vm_compute; reflexivity|]. split; [vm_compute; reflexivity|].
    split; [exact Hi|]. split; [exact Ho|]. split; [exact Ha|exact Hs].
Defined.

(** ** [oneBitIndices] *)

Lemma list_ascii_of_string_app (s1 s2 : string) :
  list_ascii_of_string (s1 +:+ s2)
  = list_ascii_of_string s1 ++ list_ascii_of_string s2.
Proof. induction s1 as [|c s1 IH]; simpl; [done|]. by rewrite IH. Qed.

Lemma bin_digits_chars p :
  reverse (list_ascii_of_string (bin_digits p)) = bit_chars p.
Proof.
  induction p as [p IH|p IH|]; simpl; [| |done].
  - by rewrite list_ascii_of_string_app, reverse_app, IH.
  - by rewrite list_ascii_of_string_app, reverse_app, IH.
Qed.

Lemma slice_bin number :
  slice_down_to_2 (bin number)
  = match number with
    | Z0 => ["0"%char]
    | Zpos p => bit_chars p
    | Zneg p => bit_chars p ++ ["b"%char]
    end.
Proof.
  unfold slice_down_to_2. destruct number as [|p|p]; [done| |].
  - change (reverse (list_ascii_of_string (bin_digits p)) = bit_chars p).
    apply bin_digits_chars.
  - change (reverse ("b"%char :: list_ascii_of_string (bin_digits p))
            = bit_chars p ++ ["b"%char]).
    by rewrite reverse_cons, bin_digits_chars.
Qed.

(** The loop of [oneBitIndices] appends the indices of the characters ["1"],
    in the order of the string. *)
Lemma oneBitIndices_fold (chars : list ascii) (i : Z) (bits : list string) :
  foldl (λ bits '(i, c),
           if decide (c = "1"%char) then bits ++ [str i] else bits)
        bits (enumerate i chars)
  = bits ++ (str <$> (filter (λ ic, ic.2 = "1"%char) (enumerate i chars)).*1).
Proof.
  revert i bits. induction chars as [|c chars IH]; intros i bits; simpl.
  - by rewrite app_nil_r.
  - rewrite IH. rewrite filter_cons. simpl.
    destruct (decide (c = "1"%char)); [|done].
    by rewrite fmap_cons, fmap_cons, <-app_assoc.
Qed.

Lemma filter_none {A} (P : A → Prop) `{∀ x, Decision (P x)} (l : list A) :
  (∀ x, x ∈ l → ¬ P x) → filter P l = [].
Proof.
  induction l as [|x l IH]; intros Hl; [done|].
  rewrite filter_cons_False by (apply Hl; left).
  apply IH. intros y Hy. apply Hl. by right.
Qed.

Lemma enumerate_app {A} (l1 l2 : list A) i :
  enumerate i (l1 ++ l2)
  = enumerate i l1 ++ enumerate (i + Z.of_nat (length l1)) l2.
Proof.
  revert i. induction l1 as [|x l1 IH]; intros i; simpl.
  - by rewrite Z.add_0_r.
  - rewrite IH. do 3 f_equal. lia.
Qed.

(** The characters ["1"] of the digits of [p], followed by characters other
    than ["1"], sit at the set bits of [p]. *)
Lemma bit_chars_positions p (extra : list ascii) (i m : Z) :
  Forall (λ c, c ≠ "1"%char) extra → Z.pos p < 2 ^ m → 0 ≤ m →
  (filter (λ ic, ic.2 = "1"%char) (enumerate i (bit_chars p ++ extra))).*1
  = filter (λ j, Z.testbit (Z.pos p) (j - i) = true) (seqZ i m).
Proof.
  revert i m. induction p as [p IH|p IH|]; intros i m Hextra Hp Hm.
  - assert (1 ≤ m) as Hm1.
    { destruct (decide (m = 0)) as [->|]; [simpl in Hp; lia|lia]. }
    assert (Z.pos p < 2 ^ (m - 1)) as Hp'.
    { replace m with (Z.succ (m - 1)) in Hp by lia.
      rewrite Z.pow_succ_r in Hp by lia. lia. }
    cbn [bit_chars app enumerate]. rewrite filter_cons_True by done.
    rewrite fmap_cons. cbn [fst].
    rewrite (IH (i + 1) (m - 1)) by (done || lia).
    rewrite (seqZ_cons i m) by lia. rewrite filter_cons_True.
    2: { by rewrite Z.sub_diag. }
    f_equal. replace (Z.succ i) with (i + 1) by lia.
    replace (Z.pred m) with (m - 1) by lia.
    apply filter_ext_elem. intros j [Hj _]%elem_of_seqZ.
    replace (j - i) with (Z.succ (j - (i + 1))) by lia.
    change (Z.pos p~1) with (2 * Z.pos p + 1).
    by rewrite Z.testbit_odd_succ by lia.
  - assert (1 ≤ m) as Hm1.
    { destruct (decide (m = 0)) as [->|]; [simpl in Hp; lia|lia]. }
    assert (Z.pos p < 2 ^ (m - 1)) as Hp'.
    { replace m with (Z.succ (m - 1)) in Hp by lia.
      rewrite Z.pow_succ_r in Hp by lia. lia. }
    cbn [bit_chars app enumerate]. rewrite filter_cons_False by done.
    rewrite (IH (i + 1) (m - 1)) by (done || lia).
    rewrite (seqZ_cons i m) by lia. rewrite filter_cons_False.
    2: { by rewrite Z.sub_diag. }
    replace (Z.succ i) with (i + 1) by lia.
    replace (Z.pred m) with (m - 1) by lia.
    apply filter_ext_elem. intros j [Hj _]%elem_of_seqZ.
    replace (j - i) with (Z.succ (j - (i + 1))) by lia.
    change (Z.pos p~0) with (2 * Z.pos p).
    by rewrite Z.testbit_even_succ by lia.
  - assert (1 ≤ m) as Hm1.
    { destruct (decide (m = 0)) as [->|]; [simpl in Hp; lia|lia]. }
    cbn [bit_chars app enumerate]. rewrite filter_cons_True by done.
    rewrite fmap_cons. cbn [fst].
    rewrite filter_none.
    2: { intros [j c] Hjc. simpl. rewrite Forall_forall in Hextra.
         apply Hextra. clear -Hjc. revert Hjc. generalize (i + 1).
         induction extra as [|x extra IH]; intros k; simpl;
           [by intros ?%elem_of_nil|].
         intros [[= _ ->]|Hin]%elem_of_cons; [left|right; by eapply IH]. }
    rewrite (seqZ_cons i m) by lia. rewrite filter_cons_True.
    2: { by rewrite Z.sub_diag. }
    rewrite filter_none; [done|].
    intros j [Hj _]%elem_of_seqZ.
    replace (j - i) with (Z.succ (j - i - 1)) by lia.
    change 1 with (2 * 0 + 1) at 1.
    rewrite Z.testbit_odd_succ by lia. by rewrite Z.bits_0.
Qed.

Lemma oneBitIndices_filter (number n : Z) :
  0 ≤ n → Z.abs number < 2 ^ n →
  oneBitIndices number
  = str <$> filter (λ i, Z.testbit (Z.abs number) (i - 1) = true)
                   (range 1 (n + 1)).
Proof.
  intros Hn Hlt. unfold oneBitIndices.
  rewrite oneBitIndices_fold, slice_bin. simpl app. f_equal.
  unfold range. replace (n + 1 - 1) with n by lia.
  destruct number as [|p|p].
  - simpl. rewrite filter_none; [done|].
    intros j _. by rewrite Z.bits_0.
  - rewrite <-(app_nil_r (bit_chars p)).
    by apply bit_chars_positions.
  - apply bit_chars_positions; [|done..].
    by apply Forall_singleton.
Qed.

(** X26: [oneBitIndices(number)] returns the decimal strings of the 1-based
    positions of the bits set in [abs(number)], in increasing order: the
    binary digits are those of the absolute value, so that a negative number
    gives the list of its absolute value, and [0] gives the empty list. *)
Theorem oneBitIndices_positions (number n : Z) :
  0 ≤ n → Z.abs number < 2 ^ n →
  oneBitIndices number
  = str <$> filter (λ i, Z.testbit (Z.abs number) (i - 1) = true)
                   (range 1 (n + 1)).
Proof. apply oneBitIndices_filter. Qed.

Lemma oneBitIndices_positions_witness :
  oneBitIndices (-5) = ["1"; "3"]%string.
Proof.
  rewrite (oneBitIndices_positions (-5) 3); [|lia|simpl; lia].
  vm_compute. reflexivity.
Defined.

(** ** [walletStrAscii] and [walletStr] *)

Lemma list_ascii_of_string_inj (s1 s2 : string) :
  list_ascii_of_string s1 = list_ascii_of_string s2 → s1 = s2.
Proof.
  intros Heq.
  by rewrite <-(string_of_list_ascii_of_string s1), Heq,
    string_of_list_ascii_of_string.
Qed.

Lemma list_ascii_of_string_join sep l :
  list_ascii_of_string (join sep l)
  = join_chars (list_ascii_of_string sep) (list_ascii_of_string <$> l).
Proof.
  induction l as [|x [|y l] IH]; [done..|].
  change (join sep (x :: y :: l)) with (x +:+ sep +:+ join sep (y :: l)).
  rewrite !list_ascii_of_string_app, IH. done.
Qed.

(** A list is cut at the first occurrence of a character in one way. *)
Lemma first_occurrence {A} (c : A) (a a' b b' : list A) :
  c ∉ a → c ∉ a' → a ++ c :: b = a' ++ c :: b' → a = a' ∧ b = b'.
Proof.
  revert a'. induction a as [|x a IH]; intros [|x' a'] Ha Ha' Heq.
  - by injection Heq as ->.
  - injection Heq as -> _. destruct Ha'. left.
  - injection Heq as -> _. destruct Ha. left.
  - injection Heq as -> Heq. apply not_elem_of_cons in Ha as [_ Ha].
    apply not_elem_of_cons in Ha' as [_ Ha'].
    destruct (IH a' Ha Ha' Heq) as [-> ->]. done.
Qed.

Lemma elem_of_join_chars c sep l :
  c ∈ join_chars sep l → c ∈ sep ∨ ∃ x, x ∈ l ∧ c ∈ x.
Proof.
  induction l as [|x [|y l] IH].
  - by intros ?%elem_of_nil.
  - intros Hc. right. exists x. split; [left|done].
  - change (join_chars sep (x :: y :: l))
      with (x ++ sep ++ join_chars sep (y :: l)).
    rewrite !elem_of_app. intros [Hc|[Hc|Hc]].
    + right. exists x. split; [left|done].
    + by left.
    + destruct (IH Hc) as [?|(z & Hz & Hcz)]; [by left|].
      right. exists z. split; [by right|done].
Qed.

(** [join] is injective on lists of non-empty strings when the separator
    holds a character that no string of the lists holds. *)
Lemma join_chars_inj (pre post : list ascii) (c : ascii)
    (l l' : list (list ascii)) :
  c ∉ pre →
  Forall (λ x, x ≠ [] ∧ c ∉ x) l → Forall (λ x, x ≠ [] ∧ c ∉ x) l' →
  join_chars (pre ++ c :: post) l = join_chars (pre ++ c :: post) l' →
  l = l'.
Proof.
  intros Hpre. revert l'.
  induction l as [|x l IH]; intros l' Hl Hl' Heq.
  - destruct l' as [|x' [|y' l']]; [done|..].
    + apply Forall_cons in Hl' as [[Hx' _] _]. by destruct Hx'.
    + apply Forall_cons in Hl' as [[Hx' _] _].
      change (join_chars (pre ++ c :: post) (x' :: y' :: l'))
        with (x' ++ (pre ++ c :: post)
                 ++ join_chars (pre ++ c :: post) (y' :: l')) in Heq.
      destruct x'; [done|discriminate Heq].
  - apply Forall_cons in Hl as [[Hx Hcx] Hl].
    destruct l' as [|x' l'].
    { destruct l as [|y l]; [by destruct Hx|].
      change (join_chars (pre ++ c :: post) (x :: y :: l))
        with (x ++ (pre ++ c :: post)
                ++ join_chars (pre ++ c :: post) (y :: l)) in Heq.
      destruct x; [done|discriminate Heq]. }
    apply Forall_cons in Hl' as [[Hx' Hcx'] Hl'].
    destruct l as [|y l], l' as [|y' l'].
    + simpl in Heq. by rewrite Heq.
    + change (join_chars (pre ++ c :: post) (x' :: y' :: l'))
        with (x' ++ (pre ++ c :: post)
                 ++ join_chars (pre ++ c :: post) (y' :: l')) in Heq.
      simpl in Heq. destruct Hcx. rewrite Heq.
      rewrite !elem_of_app, elem_of_cons. right. left. right. by left.
    + change (join_chars (pre ++ c :: post) (x :: y :: l))
        with (x ++ (pre ++ c :: post)
                ++ join_chars (pre ++ c :: post) (y :: l)) in Heq.
      simpl in Heq. destruct Hcx'. rewrite <-Heq.
      rewrite !elem_of_app, elem_of_cons. right. left. right. by left.
    + change (join_chars (pre ++ c :: post) (x :: y :: l))
        with (x ++ (pre ++ c :: post)
                ++ join_chars (pre ++ c :: post) (y :: l)) in Heq.
      change (join_chars (pre ++ c :: post) (x' :: y' :: l'))
        with (x' ++ (pre ++ c :: post)
                 ++ join_chars (pre ++ c :: post) (y' :: l')) in Heq.
      rewrite <-!(assoc_L (++) pre), <-!app_comm_cons in Heq.
      rewrite !(assoc_L (++) _ pre) in Heq.
      apply first_occurrence in Heq as [Hhead Htail].
      * apply app_inv_tail in Hhead as ->.
        apply app_inv_head in Htail.
        f_equal. by apply IH.
      * rewrite elem_of_app. tauto.
      * rewrite elem_of_app. tauto.
Qed.

Lemma pretty_N_char_digit x : pretty_N_char x ∈ digits.
Proof.
  apply (bool_decide_unpack _). unfold pretty_N_char.
  by repeat case_match.
Qed.

Lemma pretty_N_go_digits x s :
  Forall (λ c, c ∈ digits) (list_ascii_of_string s) →
  Forall (λ c, c ∈ digits) (list_ascii_of_string (pretty_N_go x s)).
Proof.
  revert s. induction (N.lt_wf_0 x) as [x _ IH]; intros s Hs.
  destruct (decide (x = 0)%N) as [->|Hx]; [by rewrite pretty_N_go_0|].
  rewrite pretty_N_go_step by lia. apply IH; [apply N.div_lt; lia|].
  simpl. constructor; [apply pretty_N_char_digit|done].
Qed.

Lemma pretty_N_go_nonempty x s : s ≠ "" → pretty_N_go x s ≠ "".
Proof.
  revert s. induction (N.lt_wf_0 x) as [x _ IH]; intros s Hs.
  destruct (decide (x = 0)%N) as [->|Hx]; [by rewrite pretty_N_go_0|].
  rewrite pretty_N_go_step by lia. apply IH; [apply N.div_lt; lia|done].
Qed.

(** [str(i)] of a positive integer: decimal digits, at least one. *)
Lemma str_digits i :
  1 ≤ i →
  list_ascii_of_string (str i) ≠ []
  ∧ Forall (λ c, c ∈ digits) (list_ascii_of_string (str i)).
Proof.
  intros Hi. destruct i as [|p|p]; [lia| |lia].
  change (str (Z.pos p)) with (pretty_N_go (N.pos p) "").
  split.
  - rewrite pretty_N_go_step by lia.
    intros Hnil.
    apply (pretty_N_go_nonempty (N.pos p `div` 10)
             (String (pretty_N_char (N.pos p `mod` 10)) "")); [done|].
    apply list_ascii_of_string_inj. by rewrite Hnil.
  - apply pretty_N_go_digits. constructor.
Qed.

Lemma oneBitIndices_digits number s :
  s ∈ oneBitIndices number →
  list_ascii_of_string s ≠ []
  ∧ Forall (λ c, c ∈ digits) (list_ascii_of_string s).
Proof.
  assert (Z.abs number < 2 ^ Z.abs number) as Hlt
    by (apply Z.pow_gt_lin_r; lia).
  rewrite (oneBitIndices_filter number (Z.abs number)) by (done || lia).
  intros (i & -> & Hi)%list_elem_of_fmap.
  apply list_elem_of_filter in Hi as [_ Hi].
  unfold range in Hi. apply elem_of_seqZ in Hi.
  apply str_digits. lia.
Qed.

(** The positions of the set bits determine the absolute value. *)
Lemma oneBitIndices_inj a b :
  oneBitIndices a = oneBitIndices b → Z.abs a = Z.abs b.
Proof.
  set (n := Z.max (Z.abs a) (Z.abs b)).
  assert (n < 2 ^ n) as Hn by (apply Z.pow_gt_lin_r; lia).
  rewrite (oneBitIndices_filter a n), (oneBitIndices_filter b n) by lia.
  intros Heq.
  apply (list_fmap_eq_inj str) in Heq; [|intros x y; apply pretty_Z_inj].
  apply Z.bits_inj'. intros j Hj.
  destruct (decide (j < n)) as [Hjn|Hjn].
  - assert (j + 1 ∈ range 1 (n + 1)) as Hin
      by (unfold range; apply elem_of_seqZ; lia).
    apply eq_true_iff_eq.
    assert (∀ x, Z.testbit x j = true ↔
      j + 1 ∈ filter (λ i, Z.testbit x (i - 1) = true) (range 1 (n + 1)))
      as Hmem.
    { intros x. rewrite list_elem_of_filter.
      replace (j + 1 - 1) with j by lia. tauto. }
    by rewrite (Hmem (Z.abs a)), (Hmem (Z.abs b)), Heq.
  - assert (∀ x, 0 ≤ x ≤ n → Z.testbit x j = false) as Hhigh.
    { intros x Hx. destruct (decide (x = 0)) as [->|]; [apply Z.bits_0|].
      apply Z.bits_above_log2; [lia|]. apply Z.log2_lt_pow2; [lia|].
      apply Z.le_lt_trans with n; [lia|].
      apply Z.lt_le_trans with (2 ^ n); [done|].
      apply Z.pow_le_mono_r; lia. }
    rewrite !Hhigh by lia. done.
Qed.

Lemma oneBitIndices_abs a : oneBitIndices (Z.abs a) = oneBitIndices a.
Proof.
  assert (Z.abs a < 2 ^ Z.abs a) as Hlt by (apply Z.pow_gt_lin_r; lia).
  rewrite (oneBitIndices_filter (Z.abs a) (Z.abs a)),
    (oneBitIndices_filter a (Z.abs a)) by (rewrite ?Z.abs_idemp; lia).
  by rewrite Z.abs_idemp.
Qed.

Lemma foldl_snoc_fmap {A B} (f : A → B) (l : list A) (acc : list B) :
  foldl (λ acc x, acc ++ [f x]) acc l = acc ++ (f <$> l).
Proof.
  revert acc. induction l as [|x l IH]; intros acc; simpl.
  - by rewrite app_nil_r.
  - by rewrite IH, <-app_assoc.
Qed.

Lemma fmap_eq_transfer {A B C} (f : A → B) (g : A → C) (l l' : list A) :
  (∀ a b, f a = f b → g a = g b) →
  f <$> l = f <$> l' → g <$> l = g <$> l'.
Proof.
  intros Hfg. revert l'. induction l as [|x l IH]; intros [|x' l'] Heq;
    try done.
  injection Heq as Hx Hl. rewrite !fmap_cons. f_equal; [by apply Hfg|by apply IH].
Qed.

Lemma separator_shape (pre post : list ascii) (c : ascii) :
  [" "%char] ++ (pre ++ c :: post) ++ [" "%char]
  = (" "%char :: pre) ++ c :: (post ++ [" "%char]).
Proof. simpl. by rewrite <-app_assoc. Qed.

(** The general form: the two tokens hold a character each, [ca] and [co],
    that is neither a digit nor a space; [co] is not a bracket and does not
    occur in the other token. *)
Lemma walletStrAscii_eq_abs (and_token or_token : string)
    (pa sa po so : list ascii) (ca co : ascii) (w w' : list Z) :
  list_ascii_of_string and_token = pa ++ ca :: sa →
  ca ∉ pa → ca ∉ digits → ca ≠ " "%char →
  list_ascii_of_string or_token = po ++ co :: so →
  co ∉ po → co ∉ digits → co ≠ " "%char →
  co ≠ "("%char → co ≠ ")"%char → co ∉ list_ascii_of_string and_token →
  walletStrAscii w and_token or_token = walletStrAscii w' and_token or_token
  ↔ Z.abs <$> w = Z.abs <$> w'.
Proof.
  intros Ha Hca Hcad Hcas Ho Hco Hcod Hcos Hcol Hcor Hcoa.
  set (item := λ combi,
    "(" +:+ join (" " +:+ and_token +:+ " ") (oneBitIndices combi) +:+ ")").
  assert (∀ v, walletStrAscii v and_token or_token
               = join (" " +:+ or_token +:+ " ") (item <$> v)) as Hstr.
  { intros v. unfold walletStrAscii. by rewrite (foldl_snoc_fmap item). }
  assert (∀ c, item (Z.abs c) = item c) as Hitem_abs.
  { intros c. unfold item. by rewrite oneBitIndices_abs. }
  set (sep_and := (" "%char :: pa) ++ ca :: (sa ++ [" "%char])).
  assert (∀ c, list_ascii_of_string (item c)
               = "("%char :: join_chars sep_and
                               (list_ascii_of_string <$> oneBitIndices c)
                             ++ [")"%char]) as Hchars.
  { intros c. unfold item.
    rewrite !list_ascii_of_string_app, list_ascii_of_string_join.
    rewrite !list_ascii_of_string_app, Ha.
    change (list_ascii_of_string " ") with [" "%char].
    by rewrite separator_shape. }
  assert (∀ v, Forall (λ x, x ≠ [] ∧ ca ∉ x)
                 (list_ascii_of_string <$> oneBitIndices v)) as Hidx.
  { intros v. apply Forall_fmap, Forall_forall. intros s Hs.
    apply oneBitIndices_digits in Hs as [Hne Hs]. split; [done|].
    rewrite Forall_forall in Hs. intros Hin. by apply Hcad, Hs. }
  assert (∀ v, Forall (λ x, x ≠ [] ∧ co ∉ x)
                 (list_ascii_of_string <$> (item <$> v))) as Hitems.
  { intros v. apply Forall_fmap, Forall_fmap, Forall_forall.
    intros c _.
    change (list_ascii_of_string (item c) ≠ []
            ∧ co ∉ list_ascii_of_string (item c)).
    rewrite Hchars. split; [done|].
    rewrite not_elem_of_cons, not_elem_of_app, list_elem_of_singleton.
    split; [done|]. split; [|done].
    intros [Hsep|(x & Hx & Hcx)]%elem_of_join_chars.
    - unfold sep_and in Hsep.
      rewrite elem_of_app, !elem_of_cons, elem_of_app,
        list_elem_of_singleton in Hsep.
      rewrite Ha, not_elem_of_app, not_elem_of_cons in Hcoa.
      tauto.
    - apply list_elem_of_fmap in Hx as (s & -> & Hs).
      apply oneBitIndices_digits in Hs as [_ Hs].
      rewrite Forall_forall in Hs. by apply Hcod, Hs. }
  rewrite !Hstr. split.
  - intros Heq. apply (f_equal list_ascii_of_string) in Heq.
    rewrite !list_ascii_of_string_join in Heq.
    rewrite !list_ascii_of_string_app, Ho in Heq.
    change (list_ascii_of_string " ") with [" "%char] in Heq.
    rewrite separator_shape in Heq.
    apply join_chars_inj in Heq; [|by apply not_elem_of_cons|apply Hitems..].
    apply (list_fmap_eq_inj list_ascii_of_string) in Heq;
      [|intros x y; apply list_ascii_of_string_inj].
    revert Heq. apply fmap_eq_transfer. intros a b Hab.
    apply oneBitIndices_inj.
    apply (f_equal list_ascii_of_string) in Hab.
    rewrite !Hchars in Hab. injection Hab as Hab.
    apply app_inv_tail in Hab.
    apply join_chars_inj in Hab; [|by apply not_elem_of_cons|apply Hidx..].
    revert Hab. apply list_fmap_eq_inj.
    intros x y. apply list_ascii_of_string_inj.
  - intros Heq. f_equal.
    rewrite <-(list_fmap_ext (item ∘ Z.abs) item w) by (intros; apply Hitem_abs).
    rewrite <-(list_fmap_ext (item ∘ Z.abs) item w') by (intros; apply Hitem_abs).
    by rewrite !list_fmap_compose, Heq.
Qed.

Local Ltac char_side :=
  first [ done
        | apply not_elem_of_nil
        | apply (bool_decide_unpack _); by vm_compute ].

(** X27: the strings of two wallets are equal exactly when the wallets have
    the same absolute values at the same positions, for [walletStrAscii] with
    its default tokens and for [walletStr]: wallets of non-negative masks
    are told apart by their strings, and the sign of a combination is not
    shown. *)
Theorem walletStrAscii_eq_iff (wallet wallet' : list Z) :
  (walletStrAscii wallet "AND" "OR" = walletStrAscii wallet' "AND" "OR"
   ↔ Z.abs <$> wallet = Z.abs <$> wallet')
  ∧ (walletStr wallet = walletStr wallet'
     ↔ Z.abs <$> wallet = Z.abs <$> wallet').
Proof.
  split.
  - apply (walletStrAscii_eq_abs "AND" "OR"
             [] (list_ascii_of_string "ND") [] (list_ascii_of_string "R")
             "A"%char "O"%char); char_side.
  - change (walletStr wallet) with (walletStrAscii wallet "∧" "∨").
    change (walletStr wallet') with (walletStrAscii wallet' "∧" "∨").
    lazymatch eval vm_compute in
      (list_ascii_of_string "∧", list_ascii_of_string "∨") with
    | (?ca :: ?sa, ?c1 :: ?c2 :: ?co :: ?so) =>
        apply (walletStrAscii_eq_abs "∧" "∨" [] sa [c1; c2] so ca co)
    end; char_side.
Qed.
